(** * tsh: a tiny shell with job control (tsh.c)

    A shallow embedding of the job list helper routines, the command-line
    parser and the evaluation path of [tsh.c], followed by the properties
    of the job-control core.

    Conventions of the embedding.
    - C [int] and [pid_t] values are integers [Z]; the code only compares,
      stores and counts them within small bounds, so no wrap-around occurs.
    - A C string is the [string] of its characters before the terminating
      NUL.  [strcpy] is a copy of that value; lines are the ones [fgets]
      delivers, shorter than [MAXLINE].
    - The job list [struct job_t jobs[MAXJOBS]] is a [list job_t]; a pointer
      [&jobs[i]] is the slot index [i] (together with the slot it points
      to), and [NULL] is [None].
    - A function whose C execution would index an array out of its bounds
      has result [None]: its behaviour is undefined.
    - What [eval] prints is part of its trace of events; the diagnostic
      lines of [addjob] are left out. *)

From Stdlib Require Import ZArith Lia Ascii String.
From Equations Require Import Equations.
From stdpp Require Import base option list numbers strings.

Local Open Scope Z_scope.

(** ** Manifest constants *)

Definition MAXLINE : Z := 1024.
Definition MAXARGS : Z := 128.
Definition MAXJOBS : nat := 16.

(** Job states *)
Definition UNDEF : Z := 0.
Definition FG : Z := 1.
Definition BG : Z := 2.
Definition ST : Z := 3.

(** ** Per-job data *)

Module Job.
Record job_t := mk {
  pid : Z;            (* Job PID *)
  jid : Z;            (* Job ID [1, 2, ...] *)
  state : Z;          (* UNDEF, FG, BG, or ST *)
  cmdline : string    (* Command line *)
}.
End Job.
Abbreviation job_t := Job.job_t.

#[global] Instance job_eq_dec : EqDecision job_t.
Proof. solve_decision. Defined.

(** ** Helper routines that manipulate the job list *)

(** [clearjob]: every field of the slot is reset; [cmdline[0] = '\0']
    leaves the empty string. *)
Definition clearjob (job : job_t) : job_t :=
  Job.mk 0 0 UNDEF "".

(** [initjobs]: [clearjob] on each of the slots. *)
Definition initjobs (jobs : list job_t) : list job_t :=
  clearjob <$> jobs.

(** The job list as [main] sets it up: [MAXJOBS] slots of static storage,
    passed through [initjobs]. *)
Definition jobs_init : list job_t :=
  initjobs (replicate MAXJOBS (Job.mk 0 0 0 "")).

(** First loop of [freejid]: [taken[jobs[i].jid] = 1] for each slot whose
    jid is not 0.  The array [taken] has [MAXJOBS + 1] cells; a jid outside
    of it makes the store undefined. *)
Fixpoint freejid_mark (jobs : list job_t) (taken : list bool) : option (list bool) :=
  match jobs with
  | [] => Some taken
  | j :: jobs' =>
      if decide (Job.jid j = 0) then freejid_mark jobs' taken
      else if decide (0 <= Job.jid j < Z.of_nat (length taken))
      then freejid_mark jobs' (<[Z.to_nat (Job.jid j) := true]> taken)
      else None
  end.

(** Second loop of [freejid]: the first [i] in [1 .. MAXJOBS] with
    [!taken[i]], and 0 when there is none. *)
Definition freejid_scan (taken : list bool) : Z :=
  match list_find (λ i, taken !! i = Some false) (seq 1 MAXJOBS) with
  | Some (_, i) => Z.of_nat i
  | None => 0
  end.

(** [freejid]: returns the smallest free job ID. *)
Definition freejid (jobs : list job_t) : option Z :=
  taken ← freejid_mark jobs (replicate (S MAXJOBS) false);
  Some (freejid_scan taken).

(** [addjob]: add a job to the job list.  The result is the returned
    [int] and the job list after the call. *)
Definition addjob (jobs : list job_t) (pid state : Z) (cmdline : string)
  : option (Z * list job_t) :=
  if decide (pid < 1) then Some (0, jobs)
  else
    free ← freejid jobs;
    if decide (free = 0) then Some (0, jobs)
    else
      match list_find (λ j, Job.pid j = 0) jobs with
      | Some (i, _) => Some (1, <[i := Job.mk pid free state cmdline]> jobs)
      | None => Some (0, jobs)
      end.

(** [deletejob]: delete a job whose PID=pid from the job list. *)
Definition deletejob (jobs : list job_t) (pid : Z) : Z * list job_t :=
  if decide (pid < 1) then (0, jobs)
  else
    match list_find (λ j, Job.pid j = pid) jobs with
    | Some (i, j) => (1, <[i := clearjob j]> jobs)
    | None => (0, jobs)
    end.

(** [fgpid]: PID of the current foreground job, 0 if no such job. *)
Definition fgpid (jobs : list job_t) : Z :=
  match list_find (λ j, Job.state j = FG) jobs with
  | Some (_, j) => Job.pid j
  | None => 0
  end.

(** [getjobpid]: find a job (by PID) on the job list. *)
Definition getjobpid (jobs : list job_t) (pid : Z) : option (nat * job_t) :=
  if decide (pid < 1) then None
  else list_find (λ j, Job.pid j = pid) jobs.

(** [getjobjid]: find a job (by JID) on the job list. *)
Definition getjobjid (jobs : list job_t) (jid : Z) : option (nat * job_t) :=
  if decide (jid < 1) then None
  else list_find (λ j, Job.jid j = jid) jobs.

(** [pid2jid]: map process ID to job ID (on the global job list). *)
Definition pid2jid (jobs : list job_t) (pid : Z) : Z :=
  if decide (pid < 1) then 0
  else
    match list_find (λ j, Job.pid j = pid) jobs with
    | Some (_, j) => Job.jid j
    | None => 0
    end.


(** ** The command-line parser *)

(** The characters of a line, as [parseline]'s local array holds them. *)
Abbreviation chars := (list ascii).

(** [buf[strlen(buf) - 1] = ' ']: the last character (the newline) becomes
    a space.  On the empty string the index is out of the array. *)
Definition replace_last (buf : chars) : option chars :=
  match buf with
  | [] => None
  | _ => Some (<[Nat.pred (length buf) := " "%char]> buf)
  end.

(** The loop that moves [buf] past spaces: [while ( *buf == ' ') buf++],
    which stops at the end of the string. *)
Fixpoint skip_spaces (buf : chars) : chars :=
  match buf with
  | c :: buf' => if decide (c = " "%char) then skip_spaces buf' else buf
  | [] => buf
  end.

(** [strchr(buf, c)]: the offset from [buf] of the first [c], if any. *)
Definition strchr (buf : chars) (c : ascii) : option nat :=
  fst <$> list_find (λ a, a = c) buf.

(** The choice of the delimiter, made before the loop and at the end of
    its body: after an opening quote the argument runs to the closing
    quote, otherwise to the next space.  The result is [buf] (moved past
    the quote) and [delim] as an offset from it. *)
Definition next_delim (buf : chars) : chars * option nat :=
  match buf with
  | c :: buf' =>
      if decide (c = "'"%char) then (buf', strchr buf' "'"%char)
      else (buf, strchr buf " "%char)
  | [] => (buf, strchr buf " "%char)
  end.

(** A value together with the equation that it is the one inspected. *)
Definition inspect {A : Type} (x : A) : { y : A | x = y } := exist _ x eq_refl.

(** The [while (delim)] loop, entered with [buf] past the leading spaces:
    [argv[argc++] = buf; *delim = '\0'; buf = delim + 1], then spaces are
    skipped and the next delimiter is looked for.  [argv] has [MAXARGS]
    cells, for the arguments and the closing [NULL]. *)
Equations? parse_args (buf : chars) (argc : Z) (argv : list string)
  : option (list string * Z) by wf (length buf) lt :=
  parse_args buf argc argv with inspect (next_delim buf) := {
    | @exist _ _ (buf', Some n) Hd with decide (argc < MAXARGS) => {
        | left _ =>
            parse_args (skip_spaces (drop (S n) buf')) (argc + 1)
              (argv ++ [string_of_list_ascii (take n buf')])
        | right _ => None };
    | @exist _ _ (buf', None) _ with decide (argc < MAXARGS) => {
        | left _ => Some (argv, argc)
        | right _ => None } }.
Proof.
  assert (Hskip : ∀ b, (length (skip_spaces b) <= length b)%nat).
  { induction b as [|c b IH]; simpl; [lia|].
    destruct (decide (c = " "%char)); simpl; lia. }
  assert (Hchr : ∀ b c k, strchr b c = Some k → (k < length b)%nat).
  { unfold strchr. intros b c k Hf.
    destruct (list_find _ b) as [[i a]|] eqn:Hfind; simplify_eq/=.
    apply list_find_Some in Hfind as (Hl & _). by apply lookup_lt_Some in Hl. }
  specialize (Hskip (drop (S n) buf')). rewrite length_drop in Hskip.
  unfold next_delim in Hd.
  destruct buf as [|c buf]; [|destruct (decide (c = "'"%char))];
    injection Hd as <- Hf; apply Hchr in Hf; simpl in *; lia.
Qed.

(** [parseline]: parse the command line and build the argv array; returns
    the number of arguments parsed. *)
Definition parseline (cmdline : string) : option (list string * Z) :=
  buf ← replace_last (list_ascii_of_string cmdline);
  parse_args (skip_spaces buf) 0 [].

(** ** Global state and signal handlers *)

(** The globals that the handlers and [eval] share: the job list and the
    flag [ready]. *)
Module Shell.
Record state := mk {
  jobs : list job_t;   (* The job list *)
  ready : Z            (* Is the newest child in its process group? *)
}.
End Shell.
Abbreviation shell := Shell.state.

Definition with_jobs (st : shell) (jobs : list job_t) : shell :=
  Shell.mk jobs (Shell.ready st).

(** The signals for which [main] installs a handler. *)
Inductive signal := SIGUSR1 | SIGINT | SIGTSTP | SIGCHLD | SIGQUIT.

(** [sigchld_handler]: its body is [return]. *)
Definition sigchld_handler (sig : signal) (st : shell) : shell := st.

(** [sigint_handler]: its body is [return]. *)
Definition sigint_handler (sig : signal) (st : shell) : shell := st.

(** [sigtstp_handler]: its body is [return]. *)
Definition sigtstp_handler (sig : signal) (st : shell) : shell := st.

(** [sigusr1_handler]: child is ready. *)
Definition sigusr1_handler (sig : signal) (st : shell) : shell :=
  Shell.mk (Shell.jobs st) 1.

(** Delivery of a signal runs the handler installed by [Signal].  The
    result is [None] when the handler ends the shell: [sigquit_handler]
    prints a line and calls [exit(1)]. *)
Definition deliver (sig : signal) (st : shell) : option shell :=
  match sig with
  | SIGUSR1 => Some (sigusr1_handler sig st)
  | SIGINT => Some (sigint_handler sig st)
  | SIGTSTP => Some (sigtstp_handler sig st)
  | SIGCHLD => Some (sigchld_handler sig st)
  | SIGQUIT => None
  end.

(** ** The core shell functions *)

(** What has become of the shell process when a function is left. *)
Inductive outcome :=
  | Returned (st : shell)     (* control is back in the caller *)
  | Blocked (st : shell)      (* suspended in [sigsuspend], no signal left *)
  | Exited (code : Z)         (* [exit(code)] *)
  | Child (argv : list string) (in_file out_file : option (option string))
                              (* this process is the forked child *)
  | Undefined.                (* out-of-bounds access *)

(** [builtin_cmd]: its body is [return 0]. *)
Definition builtin_cmd (argv : list string) : Z := 0.

(** [do_bgfg]: its body is [return]. *)
Definition do_bgfg (argv : list string) (st : shell) : shell := st.

(** [waitfg]: block until process pid is no longer the foreground process.
    Each [sigsuspend] returns after the handler of the next delivered
    signal has run; [sigs] are the signals delivered from now on. *)
Fixpoint waitfg (pid : Z) (sigs : list signal) (st : shell) : outcome :=
  if decide (fgpid (Shell.jobs st) = pid) then
    match sigs with
    | [] => Blocked st
    | sig :: sigs' =>
        match deliver sig st with
        | Some st' => waitfg pid sigs' st'
        | None => Exited 1
        end
    end
  else Returned st.

(** The redirection loop of [eval], over the arguments up to the closing
    [NULL]: a "<" or ">" cell is overwritten with [NULL] (here [None]) and
    the cell after it, which may be the closing [NULL], becomes the file.
    [in_file] and [out_file] are [None] as long as the flag [in_redir],
    [out_redir] is 0. *)
Fixpoint redirections (argv : list string) (in_file out_file : option (option string))
  : list (option string) * option (option string) * option (option string) :=
  match argv with
  | [] => ([], in_file, out_file)
  | a :: argv' =>
      if decide (a = "<"%string) then
        let '(cells, i, o) := redirections argv' (Some (head argv')) out_file in
        (None :: cells, i, o)
      else if decide (a = ">"%string) then
        let '(cells, i, o) := redirections argv' in_file (Some (head argv')) in
        (None :: cells, i, o)
      else
        let '(cells, i, o) := redirections argv' in_file out_file in
        (Some a :: cells, i, o)
  end.

(** What [execvp] reads of [argv]: the cells before the first [NULL]. *)
Fixpoint exec_args (cells : list (option string)) : list string :=
  match cells with
  | Some a :: cells' => a :: exec_args cells'
  | _ => []
  end.

(** What [eval] does that is visible from outside, in program order. *)
Inductive event :=
  | EvBlock                                (* sigprocmask(SIG_BLOCK, {SIGCHLD}) *)
  | EvFork (pid : Z)                       (* fork() returned pid *)
  | EvAddjob (pid state ret : Z)           (* addjob(jobs, pid, state, cmdline) returned ret *)
  | EvAddFailed                            (* "Failed to add job to the job list" *)
  | EvJobLine (jid pid : Z) (cmdline : string)   (* "[jid] (pid) cmdline" *)
  | EvUnblock                              (* sigprocmask(SIG_UNBLOCK, {SIGCHLD}) *)
  | EvWaitfg (pid : Z).                    (* waitfg(pid) is called *)

#[global] Instance event_eq_dec : EqDecision event.
Proof. solve_decision. Defined.

(** The part of [eval] that launches a command which is not built in:
    from the redirection loop to the end.  [bg] is the local of that name,
    [pid] is what [fork] returns and [sigs] are the signals delivered while
    [waitfg] is suspended.
    - [pid < 0]: [unix_error] ends the shell.
    - [pid == 0]: this is the child; it restores the mask, puts itself in a
      process group of its own, redirects, and is replaced by the program or
      exits: it does not reach the code after the [if].
    - otherwise the parent adds the job before it unblocks SIGCHLD. *)
Definition launch (bg : Z) (argv : list string) (cmdline : string)
    (pid : Z) (sigs : list signal) (st : shell) : list event * outcome :=
  let '(cells, in_file, out_file) := redirections argv None None in
  if decide (pid < 0) then ([EvBlock; EvFork pid], Exited 1)
  else if decide (pid = 0) then
    ([EvBlock; EvFork pid], Child (exec_args cells) in_file out_file)
  else
    let state := if decide (bg = 0) then FG else BG in
    match addjob (Shell.jobs st) pid state cmdline with
    | None => ([EvBlock; EvFork pid], Undefined)
    | Some (ret, jobs') =>
        let st' := with_jobs st jobs' in
        let report :=
          if decide (ret = 0) then [EvAddFailed]
          else if decide (bg = 0) then []
          else [EvJobLine (pid2jid jobs' pid) pid cmdline] in
        let before := [EvBlock; EvFork pid; EvAddjob pid state ret] ++ report ++ [EvUnblock] in
        if decide (bg = 0) then (before ++ [EvWaitfg pid], waitfg pid sigs st')
        else (before, Returned st')
    end.

(** [eval]: evaluate the command line that the user has just typed in. *)
Definition eval (cmdline : string) (pid : Z) (sigs : list signal) (st : shell)
  : list event * outcome :=
  match parseline cmdline with
  | None => ([], Undefined)
  | Some (argv, bg) =>
      match argv with
      | [] => ([], Returned st)        (* Ignore empty lines *)
      | _ :: _ =>
          if decide (builtin_cmd argv = 0) then launch bg argv cmdline pid sigs st
          else ([], Returned st)
      end
  end.

(** ** The shell as a transition system *)

(** What can happen to the shell between two prompts: a line is read and
    evaluated, a signal is delivered, or the bg/fg routine runs. *)
Inductive shell_op :=
  | OpLine (cmdline : string) (pid : Z) (sigs : list signal)
  | OpSignal (sig : signal)
  | OpBgfg (argv : list string).

Definition shell_step (op : shell_op) (st : shell) : outcome :=
  match op with
  | OpLine cmdline pid sigs => snd (eval cmdline pid sigs st)
  | OpSignal sig =>
      match deliver sig st with
      | Some st' => Returned st'
      | None => Exited 1
      end
  | OpBgfg argv => Returned (do_bgfg argv st)
  end.

(** The operations are run in turn for as long as control returns. *)
Fixpoint shell_run (ops : list shell_op) (st : shell) : outcome :=
  match ops with
  | [] => Returned st
  | op :: ops' =>
      match shell_step op st with
      | Returned st' => shell_run ops' st'
      | o => o
      end
  end.

(** The shell after [main] has initialised the job list. *)
Definition shell_init : shell := Shell.mk jobs_init 0.

(** The globals in which an outcome leaves a live shell. *)
Definition outcome_state (o : outcome) : option shell :=
  match o with
  | Returned st | Blocked st => Some st
  | _ => None
  end.

(** ** The job list as an abstract data type *)

(** Calls of the two routines that fill and clear slots. *)
Inductive job_op :=
  | OpAdd (pid state : Z) (cmdline : string)
  | OpDel (pid : Z).

Definition job_step (op : job_op) (jobs : list job_t) : option (list job_t) :=
  match op with
  | OpAdd pid state cmdline => snd <$> addjob jobs pid state cmdline
  | OpDel pid => Some (snd (deletejob jobs pid))
  end.

Fixpoint job_run (ops : list job_op) (jobs : list job_t) : option (list job_t) :=
  match ops with
  | [] => Some jobs
  | op :: ops' => jobs' ← job_step op jobs; job_run ops' jobs'
  end.

(** The pid that a call is about. *)
Definition op_pid (op : job_op) : Z :=
  match op with
  | OpAdd pid _ _ => pid
  | OpDel pid => pid
  end.

(** ** Vocabulary of the specification *)

(** A slot is in use (its job is live) when its pid is not 0. *)
Definition live (j : job_t) : Prop := Job.pid j ≠ 0.

(** The table is full: no slot is unused. *)
Definition table_full (jobs : list job_t) : Prop := Forall live jobs.

(** No slot of the table holds [pid]. *)
Definition pid_absent (jobs : list job_t) (pid : Z) : Prop :=
  Forall (λ j, Job.pid j ≠ pid) jobs.

(** The job ids of the live jobs, in slot order. *)
Definition live_jids (jobs : list job_t) : list Z :=
  Job.jid <$> filter live jobs.

(** [k] is the smallest positive integer that is the id of no live job. *)
Definition smallest_free_jid (jobs : list job_t) (k : Z) : Prop :=
  1 <= k ∧ (k ∉ live_jids jobs) ∧ ∀ m, 1 <= m < k → m ∈ live_jids jobs.

(** No two live jobs, in different slots, have the same job id. *)
Definition distinct_jids (jobs : list job_t) : Prop :=
  ∀ i1 i2 j1 j2,
    jobs !! i1 = Some j1 → jobs !! i2 = Some j2 →
    live j1 → live j2 → Job.jid j1 = Job.jid j2 → i1 = i2.

(** A slot as [clearjob] and [addjob] leave it: unused with jid 0, or in
    use with a pid and a jid that are positive, the jid at most [MAXJOBS]. *)
Definition slot_ok (j : job_t) : Prop :=
  (Job.pid j = 0 ∧ Job.jid j = 0) ∨
  (1 <= Job.pid j ∧ 1 <= Job.jid j <= Z.of_nat MAXJOBS).

(** The representation invariant of the job list. *)
Definition jobs_ok (jobs : list job_t) : Prop :=
  length jobs = MAXJOBS ∧ Forall slot_ok jobs ∧ NoDup (live_jids jobs).

#[global] Instance live_dec j : Decision (live j).
Proof. unfold live. apply _. Defined.

#[global] Instance slot_ok_dec j : Decision (slot_ok j).
Proof. unfold slot_ok. apply _. Defined.

#[global] Instance jobs_ok_dec jobs : Decision (jobs_ok jobs).
Proof. unfold jobs_ok. apply _. Defined.

#[global] Instance pid_absent_dec jobs pid : Decision (pid_absent jobs pid).
Proof. unfold pid_absent. apply _. Defined.

(** On a well-formed list, slot [i] holds [job] and is the only slot that
    holds [pid]. *)
Definition sole_holder (pid : Z) (i : nat) (job : job_t) (jobs : list job_t) : Prop :=
  jobs_ok jobs ∧ jobs !! i = Some job ∧
  ∀ i' j', jobs !! i' = Some j' → Job.pid j' = pid → i' = i.

(** The number of jobs whose state is [FG]. *)
Definition count_fg (jobs : list job_t) : nat :=
  length (filter (λ j, Job.state j = FG) jobs).

(** Is SIGCHLD blocked after the events of [tr], when it was [blocked]
    before them? *)
Fixpoint sigchld_blocked (tr : list event) (blocked : bool) : bool :=
  match tr with
  | [] => blocked
  | EvBlock :: tr' => sigchld_blocked tr' true
  | EvUnblock :: tr' => sigchld_blocked tr' false
  | _ :: tr' => sigchld_blocked tr' blocked
  end.

(** In [tr] an event [a] occurs and, later, an event [b]. *)
Definition precedes (a b : event) (tr : list event) : Prop :=
  ∃ pre mid post, tr = pre ++ a :: mid ++ b :: post.

(** The newline that ends a line read by [fgets]. *)
Definition nl : string := String ("010"%char) "".

(** ** Further routines and vocabulary *)

(** What [listjobs] prints after "[jid] (pid) ": the name of the state, or
    the complaint about slot [i] when the state is none of the three. *)
Inductive status_text :=
  | Running
  | Foreground
  | Stopped
  | InternalError (i : nat) (state : Z).

(** One job as [listjobs] prints it: "[jid] (pid) ", the status, and the
    command line. *)
Record job_line := mk_line {
  ln_jid : Z;
  ln_pid : Z;
  ln_status : status_text;
  ln_cmdline : string
}.

(** The [switch] of [listjobs] on the state of slot [i]. *)
Definition status_of (i : nat) (state : Z) : status_text :=
  if decide (state = BG) then Running
  else if decide (state = FG) then Foreground
  else if decide (state = ST) then Stopped
  else InternalError i state.

(** The loop of [listjobs], from slot [i] on. *)
Fixpoint listjobs_from (i : nat) (jobs : list job_t) : list job_line :=
  match jobs with
  | [] => []
  | j :: jobs' =>
      if decide (Job.pid j ≠ 0) then
        mk_line (Job.jid j) (Job.pid j) (status_of i (Job.state j)) (Job.cmdline j)
          :: listjobs_from (S i) jobs'
      else listjobs_from (S i) jobs'
  end.

(** [listjobs]: print the job list. *)
Definition listjobs (jobs : list job_t) : list job_line :=
  listjobs_from 0 jobs.

(** The slot that [clearjob] leaves. *)
Definition cleared : job_t := Job.mk 0 0 UNDEF "".

(** The number of live jobs. *)
Definition count_live (jobs : list job_t) : nat :=
  length (filter live jobs).

(** Every slot is either cleared or holds a job with a positive pid whose
    jid is the number of the slot, counted from 1. *)
Definition slots_numbered (jobs : list job_t) : Prop :=
  length jobs = MAXJOBS ∧
  ∀ i j, jobs !! i = Some j →
    j = cleared ∨ (1 <= Job.pid j ∧ Job.jid j = Z.of_nat i + 1).

(** *** Command lines as sequences of tokens *)

(** A token as the user types it: a plain word, or text between single
    quotes. *)
Inductive token :=
  | Plain (w : chars)
  | Quoted (w : chars).

(** The characters of a token on the line. *)
Definition token_text (t : token) : chars :=
  match t with
  | Plain w => w
  | Quoted w => "'"%char :: w ++ ["'"%char]
  end.

(** The argument that the token stands for. *)
Definition token_arg (t : token) : string :=
  match t with
  | Plain w | Quoted w => string_of_list_ascii w
  end.

(** A plain word is not empty, has no space in it and does not begin with
    a quote; quoted text has no quote in it. *)
Definition token_ok (t : token) : Prop :=
  match t with
  | Plain w => w ≠ [] ∧ (" "%char ∉ w) ∧ head w ≠ Some "'"%char
  | Quoted w => "'"%char ∉ w
  end.

#[global] Instance token_ok_dec t : Decision (token_ok t).
Proof. destruct t; simpl; apply _. Defined.

(** Tokens on a line, each followed by one space and [n] more. *)
Fixpoint spaced (ts : list (token * nat)) : chars :=
  match ts with
  | [] => []
  | (t, n) :: ts' => token_text t ++ replicate (S n) " "%char ++ spaced ts'
  end.

#[global] Instance signal_eq_dec : EqDecision signal.
Proof. solve_decision. Defined.

(** The job list as a log of launches: the first [n] slots hold
    background jobs numbered by their slot, the others are cleared. *)
Definition launch_log (n : nat) (jobs : list job_t) : Prop :=
  length jobs = MAXJOBS ∧ (n <= MAXJOBS)%nat ∧
  ∀ i j, jobs !! i = Some j →
    if decide (i < n)%nat
    then 1 <= Job.pid j ∧ Job.jid j = Z.of_nat i + 1 ∧ Job.state j = BG
    else j = cleared.

(** *** The main routine *)

(** What the surroundings contribute to one turn of the read/eval loop:
    the signals delivered while the shell waits for the line, what [fork]
    returns if the line is launched, and the signals delivered while
    [waitfg] is suspended. *)
Record turn := mk_turn {
  before : list signal;
  fork_pid : Z;
  during : list signal
}.

(** The option loop of [main], over the characters that [getopt] returns
    one after the other: 'v' sets [verbose], 'p' clears [emit_prompt],
    'h' and everything else call [usage], which ends the shell with
    status 1 (the result [None]). *)
Fixpoint options (opts : list ascii) (verbose emit_prompt : bool) : option (bool * bool) :=
  match opts with
  | [] => Some (verbose, emit_prompt)
  | c :: opts' =>
      if decide (c = "h"%char) then None
      else if decide (c = "v"%char) then options opts' true emit_prompt
      else if decide (c = "p"%char) then options opts' verbose false
      else None
  end.

(** The newline character. *)
Definition newline : ascii := "010"%char.

(** [fgets(cmdline, MAXLINE, stdin)] on the characters still to come: it
    stores characters while it has room for [n] more, and stops after a
    newline or at the end of the input.  The result is what it stored,
    the input left, and whether the end of the input was hit, which is
    what [feof] reports afterwards. *)
Fixpoint fgets (n : nat) (input : chars) : chars * chars * bool :=
  match n with
  | O => ([], input, false)
  | S n' =>
      match input with
      | [] => ([], [], true)
      | c :: input' =>
          if decide (c = newline) then ([c], input', false)
          else
            let '(line, rest, eof) := fgets n' input' in
            (c :: line, rest, eof)
      end
  end.

(** The handlers of the signals that arrive one after the other;
    [None] when one of them ends the shell. *)
Fixpoint deliver_all (sigs : list signal) (st : shell) : option shell :=
  match sigs with
  | [] => Some st
  | sig :: sigs' => st' ← deliver sig st; deliver_all sigs' st'
  end.

(** The read/eval loop of [main], at its turn number [k]: [fgets] reads
    a line; at the end of the input the shell ends with status 0, and
    otherwise the line is evaluated and the loop goes round, unless
    [eval] does not return. *)
Equations? main_loop (input : chars) (env : nat → turn) (k : nat) (st : shell)
  : outcome by wf (length input) lt :=
  main_loop input env k st with deliver_all (before (env k)) st := {
    | None => Exited 1
    | Some st1 with inspect (fgets (Z.to_nat (MAXLINE - 1)) input) := {
        | @exist _ _ (line, rest, true) _ => Exited 0
        | @exist _ _ (line, rest, false) Hread
            with snd (eval (string_of_list_ascii line) (fork_pid (env k))
                        (during (env k)) st1) := {
            | Returned st' => main_loop rest env (S k) st'
            | o => o } } }.
Proof.
  assert (∀ inp n l r, fgets n inp = (l, r, false) → n ≠ 0%nat →
            (length r < length inp)%nat) as Hless.
  { induction inp as [|a inp IH]; intros [|n] l r Hf Hn; simpl in Hf; try done.
    destruct (decide (a = newline)); [simplify_eq/=; lia|].
    destruct (fgets n inp) as [[l' r'] e'] eqn:Hf'.
    injection Hf as <- <- ->.
    destruct n as [|n]; [simpl in Hf'; simplify_eq/=; lia|].
    apply IH in Hf'; [simpl; lia|done]. }
  eapply Hless; [done|]. by vm_compute.
Qed.

(** [main]: the options are read, the job list is initialised and the
    read/eval loop runs.  The two flags only change what is printed (the
    prompt, the diagnostic lines of [addjob]), which is not part of the
    outcome; the input is a finite sequence of characters that is read
    without an error. *)
Definition main (opts : list ascii) (input : chars) (env : nat → turn) : outcome :=
  match options opts false true with
  | None => Exited 1
  | Some _ => main_loop input env 0 shell_init
  end.

(** The input that consists of the lines [ls], each ended by a newline,
    and of [tail] after them. *)
Definition typed (ls : list chars) (tail : chars) : chars :=
  concat ((λ l, l ++ [newline]) <$> ls) ++ tail.

(** What happens to the shell while [main] reads the lines [ls], from
    turn [k] on, and then finds the end of the input. *)
Fixpoint main_ops (ls : list chars) (env : nat → turn) (k : nat) : list shell_op :=
  match ls with
  | [] => OpSignal <$> before (env k)
  | l :: ls' =>
      (OpSignal <$> before (env k)) ++
      OpLine (string_of_list_ascii (l ++ [newline])) (fork_pid (env k)) (during (env k))
        :: main_ops ls' env (S k)
  end.

(** A line, without its newline, that [fgets] reads in one piece, and a
    last piece of input that it reads up to the end. *)
Definition line_fits (l : chars) : Prop :=
  (newline ∉ l) ∧ Z.of_nat (length l) < MAXLINE - 1.

#[global] Instance line_fits_dec l : Decision (line_fits l).
Proof. unfold line_fits. apply _. Defined.

(** * Properties *)

(** ** The job list *)

Section job_list.
Implicit Types (jobs : list job_t) (j : job_t) (taken : list bool).

Lemma elem_of_live_jids jobs k :
  k ∈ live_jids jobs ↔ ∃ j, j ∈ jobs ∧ live j ∧ Job.jid j = k.
Proof.
  unfold live_jids. rewrite list_elem_of_fmap. split.
  - intros (j & -> & Hj). apply list_elem_of_filter in Hj as [??]. eauto.
  - intros (j & ? & ? & <-). exists j. split; [done|]. by apply list_elem_of_filter.
Qed.

(** Under [slot_ok] the slots with a jid other than 0 are the live ones. *)
Lemma slot_ok_live j : slot_ok j → (Job.jid j ≠ 0 ↔ live j).
Proof. unfold slot_ok, live. lia. Qed.

Lemma slot_ok_jid_range j : slot_ok j → 0 <= Job.jid j <= Z.of_nat MAXJOBS.
Proof. unfold slot_ok. lia. Qed.

(** The first loop of [freejid] marks the jids that occur, and no other cell. *)
Lemma freejid_mark_spec jobs taken :
  Forall (λ j, 0 <= Job.jid j < Z.of_nat (length taken)) jobs →
  ∃ taken', freejid_mark jobs taken = Some taken' ∧
    length taken' = length taken ∧
    ∀ k, taken' !! k = Some true ↔
         taken !! k = Some true ∨
         ∃ j, j ∈ jobs ∧ Job.jid j ≠ 0 ∧ Z.to_nat (Job.jid j) = k.
Proof.
  revert taken. induction jobs as [|j jobs IH]; intros taken Hr; simpl.
  - exists taken. split_and!; [done..|]. intros k. split; [auto|].
    intros [?|(j & Hj & _)]; [done|]. by apply elem_of_nil in Hj.
  - apply Forall_cons in Hr as [Hj Hr].
    destruct (decide (Job.jid j = 0)) as [Hz|Hz].
    + destruct (IH taken Hr) as (taken' & -> & Hlen & Hk).
      exists taken'. split_and!; [done..|]. intros k. rewrite Hk.
      split; (intros [?|(j' & Hin & Hnz & Hjk)]; [by left|right]).
      * exists j'. by rewrite elem_of_cons; auto.
      * apply elem_of_cons in Hin as [->|Hin]; [done|eauto].
    + rewrite decide_True by done.
      destruct (IH (<[Z.to_nat (Job.jid j) := true]> taken)) as (taken' & -> & Hlen & Hk).
      { by rewrite length_insert. }
      rewrite length_insert in Hlen.
      exists taken'. split_and!; [done..|]. intros k. rewrite Hk.
      rewrite list_lookup_insert_Some. split.
      * intros [[(<- & _ & _)|(_ & ?)]|(j' & Hin & Hnz & Hjk)].
        -- right. exists j. by rewrite elem_of_cons; auto.
        -- by left.
        -- right. exists j'. by rewrite elem_of_cons; auto.
      * intros [Ht|(j' & Hin & Hnz & Hjk)].
        -- destruct (decide (Z.to_nat (Job.jid j) = k)) as [<-|Hne].
           ++ left. left. split_and!; [done..|]. lia.
           ++ left. right. done.
        -- apply elem_of_cons in Hin as [->|Hin]; [|eauto].
           left. left. split_and!; [done..|]. lia.
Qed.

(** What [freejid] returns on a table of well-formed slots. *)
Lemma freejid_spec jobs :
  Forall slot_ok jobs →
  ∃ k, freejid jobs = Some k ∧
    ((k = 0 ∧ ∀ m, 1 <= m <= Z.of_nat MAXJOBS → m ∈ live_jids jobs) ∨
     (k <= Z.of_nat MAXJOBS ∧ smallest_free_jid jobs k)).
Proof.
  intros Hok. unfold freejid.
  destruct (freejid_mark_spec jobs (replicate (S MAXJOBS) false))
    as (taken & -> & Hlen & Hk).
  { rewrite length_replicate. eapply Forall_impl; [exact Hok|].
    intros j Hj%slot_ok_jid_range. simpl. lia. }
  rewrite length_replicate in Hlen. simpl.
  assert (Hin : ∀ n, (1 <= n)%nat → taken !! n = Some true ↔ Z.of_nat n ∈ live_jids jobs).
  { intros n Hn. rewrite Hk, elem_of_live_jids. split.
    - intros [Hr|(j & Hj & Hnz & <-)].
      + apply lookup_replicate in Hr as [? _]. done.
      + exists j. rewrite Forall_forall in Hok.
        pose proof (slot_ok_live j (Hok j Hj)). pose proof (slot_ok_jid_range j (Hok j Hj)).
        split_and!; [done|tauto|lia].
    - intros (j & Hj & Hl & Hjid). right. exists j.
      rewrite Forall_forall in Hok. pose proof (slot_ok_live j (Hok j Hj)).
      split_and!; [done|tauto|lia]. }
  assert (Hfree : ∀ n, (1 <= n <= MAXJOBS)%nat →
            taken !! n = Some false ↔ Z.of_nat n ∉ live_jids jobs).
  { intros n Hn. rewrite <- Hin by lia.
    destruct (lookup_lt_is_Some_2 taken n) as [[] Hb]; [lia|..]; rewrite Hb;
      intuition congruence. }
  exists (freejid_scan taken). split; [done|]. unfold freejid_scan.
  destruct (list_find _ _) as [[idx i]|] eqn:Hfind.
  - apply list_find_Some in Hfind as (Hidx & Hfalse & Hleast).
    apply lookup_seq in Hidx as [-> Hidx].
    right. split; [lia|]. split_and!; [lia|apply Hfree; [lia|done]|].
    intros m Hm. destruct (decide (m ∈ live_jids jobs)) as [|Hnot]; [done|].
    exfalso. apply (Hleast (Z.to_nat m - 1)%nat (Z.to_nat m)).
    + apply lookup_seq. lia.
    + lia.
    + apply Hfree; [lia|]. by rewrite Z2Nat.id by lia.
  - left. split; [done|]. intros m Hm.
    rewrite list_find_None, Forall_forall in Hfind.
    destruct (decide (m ∈ live_jids jobs)) as [|Hnot]; [done|].
    exfalso. apply (Hfind (Z.to_nat m)).
    + apply elem_of_seq. lia.
    + apply Hfree; [lia|]. by rewrite Z2Nat.id by lia.
Qed.

(** Filling an unused slot adds the new jid to the live ones. *)
Lemma live_jids_fill jobs i old new :
  jobs !! i = Some old → ¬ live old → live new →
  live_jids (<[i := new]> jobs) ≡ₚ Job.jid new :: live_jids jobs.
Proof.
  intros Hi Hold Hnew. pose proof (lookup_lt_Some _ _ _ Hi) as Hlt.
  rewrite insert_take_drop by done.
  rewrite <- (take_drop_middle jobs i old Hi) at 3.
  unfold live_jids. rewrite !filter_app, !filter_cons.
  rewrite decide_True, decide_False by done.
  rewrite !fmap_app, fmap_cons. by rewrite Permutation_middle.
Qed.

(** Clearing a slot in use takes its jid from the live ones. *)
Lemma live_jids_clear jobs i old new :
  jobs !! i = Some old → live old → ¬ live new →
  live_jids jobs ≡ₚ Job.jid old :: live_jids (<[i := new]> jobs).
Proof.
  intros Hi Hold Hnew. pose proof (lookup_lt_Some _ _ _ Hi) as Hlt.
  rewrite insert_take_drop by done.
  rewrite <- (take_drop_middle jobs i old Hi) at 1.
  unfold live_jids. rewrite !filter_app, !filter_cons.
  rewrite decide_True, decide_False by done.
  rewrite !fmap_app, fmap_cons. by rewrite Permutation_middle.
Qed.

(** A table with an unused slot has fewer than [MAXJOBS] live jobs, so one
    of the ids [1 .. MAXJOBS] is free. *)
Lemma free_jid_exists jobs :
  length jobs = MAXJOBS → ¬ table_full jobs →
  ¬ ∀ m, 1 <= m <= Z.of_nat MAXJOBS → m ∈ live_jids jobs.
Proof.
  intros Hlen Hfull Hall.
  assert (length (live_jids jobs) < MAXJOBS)%nat as Hlt.
  { unfold live_jids. rewrite length_fmap, <- Hlen.
    apply not_Forall_Exists in Hfull; [|apply _].
    apply Exists_exists in Hfull as (j & Hj & Hdead).
    by eapply length_filter_lt. }
  assert (Z.of_nat <$> seq 1 MAXJOBS ⊆+ live_jids jobs) as Hsub.
  { apply NoDup_submseteq.
    - apply NoDup_fmap; [apply _|apply NoDup_seq].
    - intros m (n & -> & Hn%elem_of_seq)%list_elem_of_fmap. apply Hall. lia. }
  apply submseteq_length in Hsub. rewrite length_fmap, length_seq in Hsub. lia.
Qed.

(** The two ways [addjob] can go on a table of well-formed slots. *)
Lemma addjob_cases jobs pid state cmdline :
  length jobs = MAXJOBS → Forall slot_ok jobs →
  (addjob jobs pid state cmdline = Some (0, jobs) ∧ (table_full jobs ∨ pid < 1)) ∨
  (1 <= pid ∧ ¬ table_full jobs ∧
   ∃ i old k,
     list_find (λ j, Job.pid j = 0) jobs = Some (i, old) ∧
     k <= Z.of_nat MAXJOBS ∧ smallest_free_jid jobs k ∧
     addjob jobs pid state cmdline = Some (1, <[i := Job.mk pid k state cmdline]> jobs)).
Proof.
  intros Hlen Hok. unfold addjob.
  destruct (decide (pid < 1)) as [|Hpid]; [by auto|].
  destruct (freejid_spec jobs Hok) as (k & -> & Hk). simpl.
  destruct (list_find _ jobs) as [[i old]|] eqn:Hfind.
  - assert (¬ table_full jobs) as Hnf.
    { apply list_find_Some in Hfind as (Hi & Hz & _).
      intros Hf. eapply Forall_lookup_1 in Hf; [|exact Hi]. done. }
    right. split_and!; [lia|done|]. exists i, old, k.
    destruct Hk as [[_ Hall]|[Hle Hsm]].
    + by apply free_jid_exists in Hall.
    + destruct Hsm as (H1 & ? & ?). rewrite decide_False by lia. done.
  - left. apply list_find_None in Hfind.
    split; [by destruct (decide (k = 0))|by left].
Qed.

(** The two ways [deletejob] can go, on any table. *)
Lemma deletejob_cases jobs pid :
  (deletejob jobs pid = (0, jobs) ∧ (pid < 1 ∨ pid_absent jobs pid)) ∨
  (1 <= pid ∧
   ∃ i old,
     list_find (λ j, Job.pid j = pid) jobs = Some (i, old) ∧
     deletejob jobs pid = (1, <[i := Job.mk 0 0 UNDEF ""]> jobs)).
Proof.
  unfold deletejob. destruct (decide (pid < 1)) as [|Hpid]; [by auto|].
  destruct (list_find _ jobs) as [[i old]|] eqn:Hfind.
  - right. split; [lia|]. by exists i, old.
  - left. apply list_find_None in Hfind. auto.
Qed.

(** *** The invariant *)

Lemma jobs_ok_init : jobs_ok jobs_init.
Proof. by apply (bool_decide_unpack _). Qed.

Lemma addjob_ok jobs pid state cmdline ret jobs' :
  jobs_ok jobs → addjob jobs pid state cmdline = Some (ret, jobs') → jobs_ok jobs'.
Proof.
  intros (Hlen & Hok & Hnd) Hadd.
  destruct (addjob_cases jobs pid state cmdline Hlen Hok)
    as [[Heq _]|(Hpid & _ & i & old & k & Hfind & Hle & (H1 & Hfree & _) & Heq)];
    rewrite Heq in Hadd; simplify_eq; [done|].
  apply list_find_Some in Hfind as (Hi & Hz & _).
  split_and!.
  - by rewrite length_insert.
  - apply Forall_insert; [done|]. right. simpl. lia.
  - rewrite (live_jids_fill jobs i old); [|done|unfold live; tauto|unfold live; simpl; lia].
    by apply NoDup_cons.
Qed.

Lemma deletejob_ok jobs pid :
  jobs_ok jobs → jobs_ok (snd (deletejob jobs pid)).
Proof.
  intros (Hlen & Hok & Hnd).
  destruct (deletejob_cases jobs pid) as [[-> _]|(Hpid & i & old & Hfind & ->)];
    [done|]. simpl.
  apply list_find_Some in Hfind as (Hi & Hp & _).
  split_and!.
  - by rewrite length_insert.
  - apply Forall_insert; [done|]. by left.
  - rewrite (live_jids_clear jobs i old (Job.mk 0 0 UNDEF "")) in Hnd;
      [|done|unfold live; lia|unfold live; simpl; tauto].
    by apply NoDup_cons in Hnd as [_ ?].
Qed.

Lemma job_step_ok op jobs :
  jobs_ok jobs → ∃ jobs', job_step op jobs = Some jobs' ∧ jobs_ok jobs'.
Proof.
  intros Hok. destruct op as [pid state cmdline|pid]; simpl.
  - destruct (addjob jobs pid state cmdline) as [[ret jobs']|] eqn:Hadd.
    + exists jobs'. split; [done|]. by eapply addjob_ok.
    + destruct Hok as (Hlen & Hs & _).
      destruct (addjob_cases jobs pid state cmdline Hlen Hs)
        as [[? _]|(_ & _ & ? & ? & ? & _ & _ & _ & ?)]; congruence.
  - eexists. split; [done|]. by apply deletejob_ok.
Qed.

Lemma job_run_ok ops jobs :
  jobs_ok jobs → ∃ jobs', job_run ops jobs = Some jobs' ∧ jobs_ok jobs'.
Proof.
  revert jobs. induction ops as [|op ops IH]; intros jobs Hok; simpl; [by eauto|].
  destruct (job_step_ok op jobs Hok) as (jobs1 & -> & Hok1). simpl. by apply IH.
Qed.

(** With the invariant, live jobs in different slots have different jids. *)
Lemma NoDup_live_jids_distinct jobs : NoDup (live_jids jobs) → distinct_jids jobs.
Proof.
  unfold distinct_jids, live_jids.
  induction jobs as [|j jobs IH]; intros Hnd i1 i2 j1 j2 H1 H2 L1 L2 Heq; [done|].
  rewrite filter_cons in Hnd.
  assert (∀ i' j', jobs !! i' = Some j' → live j' → live j →
            Job.jid j' ≠ Job.jid j) as Hfresh.
  { intros i' j' Hi' Hl' Hl Hjid. rewrite decide_True in Hnd by done.
    rewrite fmap_cons in Hnd. apply NoDup_cons in Hnd as [Hnin _]. apply Hnin.
    rewrite <- Hjid. apply list_elem_of_fmap. exists j'. split; [done|].
    apply list_elem_of_filter. split; [done|]. by eapply list_elem_of_lookup_2. }
  assert (NoDup (Job.jid <$> filter live jobs)) as Hnd'.
  { destruct (decide (live j)); [|done].
    rewrite fmap_cons in Hnd. by apply NoDup_cons in Hnd as [_ ?]. }
  destruct i1 as [|i1], i2 as [|i2]; simplify_eq/=; [done|..].
  - exfalso. by eapply (Hfresh i2 j2).
  - exfalso. by eapply (Hfresh i1 j1).
  - f_equal. by eapply IH.
Qed.

End job_list.

(** C2. On a job list that satisfies the representation invariant,
    [addjob] returns 0 exactly when the table is full or [pid < 1]; when
    it returns something else, one unused slot has been filled with the
    given pid, state and command line, every other slot is as before, and
    the jid of the new job is the smallest positive integer that no live
    job had when [addjob] was called. *)
Theorem addjob_contract jobs pid state cmdline :
  jobs_ok jobs →
  ∃ ret jobs',
    addjob jobs pid state cmdline = Some (ret, jobs') ∧
    (ret = 0 ↔ table_full jobs ∨ pid < 1) ∧
    (ret = 0 → jobs' = jobs) ∧
    (ret ≠ 0 →
     ∃ i old k,
       jobs !! i = Some old ∧ ¬ live old ∧
       jobs' = <[i := Job.mk pid k state cmdline]> jobs ∧
       jobs' !! i = Some (Job.mk pid k state cmdline) ∧
       smallest_free_jid jobs k).
Proof.
  intros (Hlen & Hok & _).
  destruct (addjob_cases jobs pid state cmdline Hlen Hok)
    as [[Heq Hwhy]|(Hpid & Hnf & i & old & k & Hfind & _ & Hk & Heq)].
  - exists 0, jobs. split_and!; [done|tauto|done|done].
  - exists 1, (<[i := Job.mk pid k state cmdline]> jobs).
    apply list_find_Some in Hfind as (Hi & Hz & _).
    split_and!; [done|split; [done|intros [?|?]; [done|lia]]|done|].
    intros _. exists i, old, k. split_and!; [done|unfold live; tauto|done| |done].
    apply list_lookup_insert_eq. by eapply lookup_lt_Some.
Qed.

Lemma addjob_contract_witness :
  ∃ ret jobs',
    addjob jobs_init 100 BG "ls" = Some (ret, jobs') ∧
    (ret = 0 ↔ table_full jobs_init ∨ 100 < 1) ∧
    (ret = 0 → jobs' = jobs_init) ∧
    (ret ≠ 0 →
     ∃ i old k,
       jobs_init !! i = Some old ∧ ¬ live old ∧
       jobs' = <[i := Job.mk 100 k BG "ls"]> jobs_init ∧
       jobs' !! i = Some (Job.mk 100 k BG "ls") ∧
       smallest_free_jid jobs_init k).
Proof.
  apply (addjob_contract jobs_init 100 BG "ls").
  apply (bool_decide_unpack _). vm_compute. exact I.
Defined.

(** C3. After any sequence of [addjob] and [deletejob] calls on the
    initialised job list, live jobs in different slots have different
    jids, and whenever [addjob] then succeeds the jid it assigns is the
    smallest positive integer that no live job has at that moment. *)
Theorem jids_distinct_and_smallest ops :
  ∃ jobs,
    job_run ops jobs_init = Some jobs ∧
    distinct_jids jobs ∧
    ∀ pid state cmdline jobs',
      addjob jobs pid state cmdline = Some (1, jobs') →
      ∃ i old k,
        jobs !! i = Some old ∧ ¬ live old ∧
        jobs' = <[i := Job.mk pid k state cmdline]> jobs ∧
        smallest_free_jid jobs k.
Proof.
  destruct (job_run_ok ops jobs_init jobs_ok_init)
    as (jobs & Hrun & Hlen & Hslots & Hnd).
  exists jobs. split_and!; [done|by apply NoDup_live_jids_distinct|].
  intros pid state cmdline jobs' Hadd.
  destruct (addjob_cases jobs pid state cmdline Hlen Hslots)
    as [[Heq _]|(_ & _ & i & old & k & Hfind & _ & Hk & Heq)];
    rewrite Heq in Hadd; simplify_eq.
  apply list_find_Some in Hfind as (Hi & Hz & _).
  exists i, old, k. split_and!; [done|unfold live; tauto|done|done].
Qed.

(** An id that [deletejob] has freed is handed out again as soon as it is
    the smallest free one. *)
Example jid_reclaimed :
  job_run [OpAdd 11 BG "a"; OpAdd 12 BG "b"; OpAdd 13 BG "c"; OpDel 12;
           OpAdd 14 BG "d"] jobs_init
  = Some (<[0%nat := Job.mk 11 1 BG "a"]>
          (<[1%nat := Job.mk 14 2 BG "d"]>
           (<[2%nat := Job.mk 13 3 BG "c"]> jobs_init))).
Proof. reflexivity. Qed.

(** C9 (as amended). [deletejob] returns 0 exactly when [pid < 1] or no
    slot of the job list holds [pid], and then the list is unchanged; when
    it succeeds, one slot that holds [pid] (the first one) has been cleared
    to pid 0, jid 0, state [UNDEF] and an empty command line, and all other
    slots are unchanged. *)
Theorem deletejob_contract jobs pid :
  (fst (deletejob jobs pid) = 0 ↔ pid < 1 ∨ pid_absent jobs pid) ∧
  (fst (deletejob jobs pid) = 0 → snd (deletejob jobs pid) = jobs) ∧
  (fst (deletejob jobs pid) ≠ 0 →
   fst (deletejob jobs pid) = 1 ∧
   ∃ i old,
     jobs !! i = Some old ∧ Job.pid old = pid ∧
     (∀ i' j', (i' < i)%nat → jobs !! i' = Some j' → Job.pid j' ≠ pid) ∧
     snd (deletejob jobs pid) = <[i := Job.mk 0 0 UNDEF ""]> jobs ∧
     snd (deletejob jobs pid) !! i = Some (Job.mk 0 0 UNDEF "")).
Proof.
  destruct (deletejob_cases jobs pid) as [[-> Hwhy]|(Hpid & i & old & Hfind & ->)];
    simpl.
  - split_and!; [tauto|done|done].
  - apply list_find_Some in Hfind as (Hi & Hp & Hleast).
    split_and!; [|done|].
    + split; [done|]. intros [?|Habs]; [lia|].
      eapply Forall_lookup_1 in Habs; [|exact Hi]. done.
    + intros _. split; [done|]. exists i, old.
      split_and!; [done|done| |done|].
      * intros i' j' ??. by eapply Hleast.
      * apply list_lookup_insert_eq. by eapply lookup_lt_Some.
Qed.

(** C9 as it was stated fails for pid 0: every slot of the initialised
    job list holds pid 0, and [deletejob] still returns 0. *)
Lemma deletejob_pid0_counterexample :
  ¬ (fst (deletejob jobs_init 0) = 0 ↔ pid_absent jobs_init 0).
Proof.
  intros [Hfail _]. specialize (Hfail eq_refl).
  by apply (Forall_lookup_1 _ _ 0%nat (Job.mk 0 0 UNDEF "")) in Hfail.
Qed.

(** C10. For an identifier below 1 the lookups find nothing and
    [deletejob] fails without touching the job list, whatever the list
    holds. *)
Theorem nonpositive_id_not_found jobs id :
  id < 1 →
  getjobpid jobs id = None ∧
  getjobjid jobs id = None ∧
  pid2jid jobs id = 0 ∧
  deletejob jobs id = (0, jobs).
Proof.
  intros Hid. unfold getjobpid, getjobjid, pid2jid, deletejob.
  by rewrite !decide_True by done.
Qed.

(** The unused slots of the initialised list store pid 0 and jid 0, and
    the identifier 0 is still not found. *)
Lemma nonpositive_id_not_found_witness :
  jobs_init !! 0%nat = Some (Job.mk 0 0 UNDEF "") ∧
  getjobpid jobs_init 0 = None ∧
  getjobjid jobs_init 0 = None ∧
  pid2jid jobs_init 0 = 0 ∧
  deletejob jobs_init 0 = (0, jobs_init).
Proof.
  split; [reflexivity|]. apply (nonpositive_id_not_found jobs_init 0). lia.
Defined.

(** ** Looking up a job that was added *)

Section roundtrip.
Variables (pid : Z) (i : nat) (job : job_t).
Hypothesis job_pid : Job.pid job = pid.
Hypothesis job_live : 1 <= pid.

#[local] Abbreviation sole_holder := (sole_holder pid i job).

(** A call about another pid leaves the list as it is or rewrites one
    slot, which held another pid and holds another pid afterwards. *)
Lemma job_step_other op jobs jobs' :
  op_pid op ≠ pid → length jobs = MAXJOBS → Forall slot_ok jobs →
  job_step op jobs = Some jobs' →
  jobs' = jobs ∨
  ∃ i0 old new, jobs !! i0 = Some old ∧ Job.pid old ≠ pid ∧
    Job.pid new ≠ pid ∧ jobs' = <[i0 := new]> jobs.
Proof using Type*.
  intros Hop Hlen Hslots Hstep.
  destruct op as [p s c|p]; simpl in *.
  - destruct (addjob_cases jobs p s c Hlen Hslots)
      as [[Heq _]|(_ & _ & i0 & old & k & Hfind & _ & _ & Heq)];
      rewrite Heq in Hstep; simplify_eq/=; [by left|right].
    apply list_find_Some in Hfind as (Hi0 & Hz & _).
    exists i0, old, (Job.mk p k s c). split_and!; [done|lia|done|done].
  - destruct (deletejob_cases jobs p) as [[Heq _]|(_ & i0 & old & Hfind & Heq)];
      rewrite Heq in Hstep; simplify_eq/=; [by left|right].
    apply list_find_Some in Hfind as (Hi0 & Hz & _).
    exists i0, old, (Job.mk 0 0 UNDEF ""). split_and!; [done|lia|simpl; lia|done].
Qed.

Lemma sole_holder_step op jobs :
  op_pid op ≠ pid → sole_holder jobs →
  ∃ jobs', job_step op jobs = Some jobs' ∧ sole_holder jobs'.
Proof using Type*.
  intros Hop (Hok & Hi & Hsole).
  destruct (job_step_ok op jobs Hok) as (jobs' & Hstep & Hok').
  exists jobs'. split; [done|]. split; [done|].
  destruct Hok as (Hlen & Hslots & _).
  destruct (job_step_other op jobs jobs' Hop Hlen Hslots Hstep)
    as [->|(i0 & old & new & Hi0 & Hold & Hnew & ->)]; [done|].
  assert (i0 ≠ i) as Hne by (intros ->; simplify_eq).
  split.
  - by rewrite list_lookup_insert_ne.
  - intros i' j' Hi' Hp.
    apply list_lookup_insert_Some in Hi' as [(-> & <- & _)|[_ Hi']]; [done|].
    by eapply Hsole.
Qed.

Lemma sole_holder_run ops jobs :
  Forall (λ op, op_pid op ≠ pid) ops → sole_holder jobs →
  ∃ jobs', job_run ops jobs = Some jobs' ∧ sole_holder jobs'.
Proof using Type*.
  intros Hops. revert jobs.
  induction Hops as [|op ops Hop _ IH]; intros jobs Hsole; simpl; [by eauto|].
  destruct (sole_holder_step op jobs Hop Hsole) as (jobs1 & -> & Hsole1).
  simpl. by apply IH.
Qed.

(** Another slot that carries the jid of [job] would be live, too. *)
Lemma sole_holder_jid jobs i' j' :
  sole_holder jobs → 1 <= Job.jid job →
  jobs !! i' = Some j' → Job.jid j' = Job.jid job → i' = i.
Proof using Type*.
  intros ((_ & Hslots & Hnd) & Hi & _) Hjid Hi' Heq.
  apply (NoDup_live_jids_distinct jobs Hnd i' i j' job); [done|done| | |done].
  - eapply Forall_lookup_1 in Hslots; [|exact Hi']. apply slot_ok_live; [done|lia].
  - unfold live. lia.
Qed.

Lemma sole_holder_getjobpid jobs :
  sole_holder jobs → getjobpid jobs pid = Some (i, job).
Proof using Type*.
  intros (_ & Hi & Hsole). unfold getjobpid. rewrite decide_False by lia.
  apply list_find_Some. split_and!; [done|done|].
  intros i' j' Hi' Hlt Hp. apply (Hsole i' j') in Hp; [lia|done].
Qed.

Lemma sole_holder_getjobjid jobs :
  sole_holder jobs → 1 <= Job.jid job →
  getjobjid jobs (Job.jid job) = Some (i, job).
Proof using Type*.
  intros Hsole Hjid. unfold getjobjid. rewrite decide_False by lia.
  apply list_find_Some. split_and!; [apply Hsole|done|].
  intros i' j' Hi' Hlt Heq. apply (sole_holder_jid jobs i' j') in Heq; [lia|done..].
Qed.

Lemma sole_holder_deletejob jobs :
  sole_holder jobs → 1 <= Job.jid job →
  ∃ jobs', deletejob jobs pid = (1, jobs') ∧
    getjobpid jobs' pid = None ∧ getjobjid jobs' (Job.jid job) = None.
Proof using Type*.
  intros Hsole Hjid.
  pose proof (sole_holder_getjobpid jobs Hsole) as Hget.
  unfold getjobpid in Hget. rewrite decide_False in Hget by lia.
  unfold deletejob. rewrite decide_False by lia.
  rewrite Hget. eexists. split; [done|].
  unfold getjobpid, getjobjid, clearjob. rewrite !decide_False by lia.
  destruct Hsole as (Hok & Hi & Hsole).
  split; apply list_find_None, Forall_forall; intros j' Hj' Hbad;
    apply list_elem_of_lookup in Hj' as (i' & Hi');
    apply list_lookup_insert_Some in Hi' as [(-> & <- & _)|[Hne Hi']];
    simpl in *; try lia.
  - by apply (Hsole i' j') in Hbad.
  - by apply (sole_holder_jid jobs i' j') in Hbad.
Qed.

End roundtrip.

(** C5 (as amended). A job added by [addjob] under a pid that no slot of
    the list holds is found by [getjobpid] under its pid and by
    [getjobjid] under its jid, in the same slot and with the pid, jid,
    state and command line it was added with; this stays so across any
    further [addjob] and [deletejob] calls about other pids.  A
    [deletejob] of its pid then succeeds, and after it both lookups find
    nothing. *)
Theorem add_lookup_roundtrip jobs pid state cmdline jobs1 :
  jobs_ok jobs → pid_absent jobs pid →
  addjob jobs pid state cmdline = Some (1, jobs1) →
  ∃ i k,
    jobs1 !! i = Some (Job.mk pid k state cmdline) ∧
    ∀ ops, Forall (λ op, op_pid op ≠ pid) ops →
      ∃ jobs2,
        job_run ops jobs1 = Some jobs2 ∧
        getjobpid jobs2 pid = Some (i, Job.mk pid k state cmdline) ∧
        getjobjid jobs2 k = Some (i, Job.mk pid k state cmdline) ∧
        ∃ jobs3,
          deletejob jobs2 pid = (1, jobs3) ∧
          getjobpid jobs3 pid = None ∧
          getjobjid jobs3 k = None.
Proof.
  intros Hok Habs Hadd.
  pose proof (addjob_ok _ _ _ _ _ _ Hok Hadd) as Hok1.
  destruct Hok as (Hlen & Hslots & _).
  destruct (addjob_cases jobs pid state cmdline Hlen Hslots)
    as [[Heq _]|(Hpid & _ & i & old & k & Hfind & _ & (Hk & _) & Heq)];
    rewrite Heq in Hadd; simplify_eq.
  apply list_find_Some in Hfind as (Hi & _).
  pose proof (lookup_lt_Some _ _ _ Hi) as Hlt.
  set (job := Job.mk pid k state cmdline).
  assert (sole_holder pid i job (<[i := job]> jobs)) as Hsole.
  { split_and!; [done|by apply list_lookup_insert_eq|].
    intros i' j' Hi' Hp.
    apply list_lookup_insert_Some in Hi' as [(-> & _)|[_ Hi']]; [done|].
    eapply Forall_lookup_1 in Habs; [|exact Hi']. done. }
  exists i, k. split; [apply Hsole|]. intros ops Hops.
  destruct (sole_holder_run pid i job eq_refl Hpid ops _ Hops Hsole)
    as (jobs2 & Hrun & Hsole2).
  exists jobs2. split_and!; [done|..].
  - by apply sole_holder_getjobpid.
  - by apply (sole_holder_getjobjid pid i job).
  - by apply (sole_holder_deletejob pid i job).
Qed.

Lemma add_lookup_roundtrip_witness :
  ∃ i k,
    <[0%nat := Job.mk 100 1 BG "ls"]> jobs_init !! i = Some (Job.mk 100 k BG "ls") ∧
    ∀ ops, Forall (λ op, op_pid op ≠ 100) ops →
      ∃ jobs2,
        job_run ops (<[0%nat := Job.mk 100 1 BG "ls"]> jobs_init) = Some jobs2 ∧
        getjobpid jobs2 100 = Some (i, Job.mk 100 k BG "ls") ∧
        getjobjid jobs2 k = Some (i, Job.mk 100 k BG "ls") ∧
        ∃ jobs3,
          deletejob jobs2 100 = (1, jobs3) ∧
          getjobpid jobs3 100 = None ∧
          getjobjid jobs3 k = None.
Proof.
  apply (add_lookup_roundtrip jobs_init 100 BG "ls").
  - apply (bool_decide_unpack _). vm_compute. exact I.
  - apply (bool_decide_unpack _). vm_compute. exact I.
  - reflexivity.
Defined.

(** C5 as it was stated fails when [addjob] is called with a pid that a
    slot already holds: the job added second sits in slot 1 with jid 2,
    [getjobjid] finds it there, and [getjobpid] finds the older job of
    slot 0 instead, with another jid and another command line. *)
Lemma roundtrip_duplicate_pid_counterexample :
  ∃ jobs1 jobs2,
    addjob jobs_init 5 BG "a" = Some (1, jobs1) ∧
    addjob jobs1 5 BG "b" = Some (1, jobs2) ∧
    jobs2 !! 1%nat = Some (Job.mk 5 2 BG "b") ∧
    getjobjid jobs2 2 = Some (1%nat, Job.mk 5 2 BG "b") ∧
    getjobpid jobs2 5 = Some (0%nat, Job.mk 5 1 BG "a") ∧
    getjobpid jobs2 5 ≠ getjobjid jobs2 2.
Proof.
  eexists _, _. split_and!; [reflexivity..|]. vm_compute. discriminate.
Qed.

(** ** The parser and [eval] *)

(** The loop of [parseline] counts the arguments it stores. *)
Lemma parse_args_count buf argc argv res n :
  parse_args buf argc argv = Some (res, n) →
  n - Z.of_nat (length res) = argc - Z.of_nat (length argv).
Proof.
  funelim (parse_args buf argc argv); intros Hres; try discriminate.
  - match goal with IH : ∀ _ _, _ → _ |- _ => apply IH in Hres end.
    rewrite length_app in Hres. simpl in Hres. lia.
  - simplify_eq. lia.
Qed.

(** [parseline] returns [argc], the number of arguments it has stored. *)
Lemma parseline_argc cmdline argv n :
  parseline cmdline = Some (argv, n) → n = Z.of_nat (length argv).
Proof.
  unfold parseline. intros Hp.
  destruct (replace_last _) as [buf|]; simplify_eq/=.
  apply parse_args_count in Hp. simpl in Hp. lia.
Qed.

(** So the local [bg] of [eval] is not 0 on a line with an argument, and
    [eval] goes down the launch path with it. *)
Lemma eval_launch cmdline argv n pid sigs st :
  parseline cmdline = Some (argv, n) → argv ≠ [] →
  n ≠ 0 ∧ eval cmdline pid sigs st = launch n argv cmdline pid sigs st.
Proof.
  intros Hp Hne. pose proof (parseline_argc _ _ _ Hp) as Hn.
  unfold eval. rewrite Hp. destruct argv as [|a argv]; [done|].
  split; [simpl in Hn; lia|done].
Qed.

(** *** Signals and the wait for the foreground job *)

Lemma deliver_jobs sig st st' :
  deliver sig st = Some st' → Shell.jobs st' = Shell.jobs st.
Proof. destruct sig; intros [= <-]; done. Qed.

(** [waitfg] leaves the job list as it is; it returns only when the
    foreground job is not [pid]. *)
Lemma waitfg_outcome pid sigs st :
  match waitfg pid sigs st with
  | Returned st' => Shell.jobs st' = Shell.jobs st ∧ fgpid (Shell.jobs st) ≠ pid
  | Blocked st' => Shell.jobs st' = Shell.jobs st
  | _ => True
  end.
Proof.
  revert st. induction sigs as [|sig sigs IH]; intros st; simpl.
  - destruct (decide (fgpid (Shell.jobs st) = pid)); done.
  - destruct (decide (fgpid (Shell.jobs st) = pid)) as [Hfg|]; [|done].
    destruct (deliver sig st) as [st'|] eqn:Hdel; [|done].
    apply deliver_jobs in Hdel. specialize (IH st').
    destruct (waitfg pid sigs st'); try done.
    + destruct IH as [-> Hne]. by rewrite Hdel in Hne.
    + by rewrite IH.
Qed.

(** *** Counting the foreground jobs *)

Lemma count_fg_insert jobs i old new :
  jobs !! i = Some old →
  (count_fg (<[i := new]> jobs) + (if decide (Job.state old = FG) then 1 else 0)
   = count_fg jobs + (if decide (Job.state new = FG) then 1 else 0))%nat.
Proof.
  intros Hi. pose proof (lookup_lt_Some _ _ _ Hi) as Hlt.
  rewrite insert_take_drop by done.
  rewrite <- (take_drop_middle jobs i old Hi) at 3.
  unfold count_fg. rewrite !filter_app, !filter_cons, !length_app.
  do 2 case_decide; simpl; lia.
Qed.

Lemma count_fg_0 jobs :
  count_fg jobs = 0%nat ↔ Forall (λ j, Job.state j ≠ FG) jobs.
Proof.
  unfold count_fg. rewrite length_zero_iff_nil. split.
  - intros Hnil. apply Forall_forall. intros j Hj Hfg.
    assert (j ∈ filter (λ j, Job.state j = FG) jobs) as Hin
      by by apply list_elem_of_filter.
    rewrite Hnil in Hin. by apply elem_of_nil in Hin.
  - intros Hall. induction Hall as [|j jobs Hj _ IH]; [done|].
    by rewrite filter_cons, decide_False.
Qed.

(** What [addjob] does to the list, on any list on which it is defined. *)
Lemma addjob_effect jobs pid state cmdline ret jobs' :
  addjob jobs pid state cmdline = Some (ret, jobs') →
  (ret = 0 ∧ jobs' = jobs) ∨
  (ret = 1 ∧ 1 <= pid ∧
   ∃ i old k, jobs !! i = Some old ∧ Job.pid old = 0 ∧
     jobs' = <[i := Job.mk pid k state cmdline]> jobs).
Proof.
  unfold addjob. destruct (decide (pid < 1)); [intros [= <- <-]; by left|].
  destruct (freejid jobs) as [k|]; [simpl|done].
  destruct (decide (k = 0)); [intros [= <- <-]; by left|].
  destruct (list_find _ jobs) as [[i old]|] eqn:Hfind; intros [= <- <-]; [|by left].
  apply list_find_Some in Hfind as (Hi & Hz & _).
  right. split_and!; [done|lia|]. by exists i, old, k.
Qed.

(** A job put in the foreground of a list without one is what [fgpid]
    reports. *)
Lemma fgpid_insert_fg jobs i old pid k cmdline :
  count_fg jobs = 0%nat → jobs !! i = Some old →
  fgpid (<[i := Job.mk pid k FG cmdline]> jobs) = pid.
Proof.
  intros Hc%count_fg_0 Hi. unfold fgpid.
  assert (list_find (λ j, Job.state j = FG) (<[i := Job.mk pid k FG cmdline]> jobs)
          = Some (i, Job.mk pid k FG cmdline)) as ->; [|done].
  apply list_find_Some. split_and!; [|done|].
  - apply list_lookup_insert_eq. by eapply lookup_lt_Some.
  - intros i' j' Hi' Hlt. rewrite list_lookup_insert_ne in Hi' by lia.
    by eapply Forall_lookup_1 in Hc.
Qed.

Lemma fgpid_none jobs : count_fg jobs = 0%nat → fgpid jobs = 0.
Proof.
  intros Hc%count_fg_0. unfold fgpid.
  by rewrite (proj2 (list_find_None (λ j, Job.state j = FG) jobs) Hc).
Qed.

(** The launch path, started without a foreground job, returns without
    one; while it is suspended in [waitfg] there is at most one. *)
Lemma launch_fg bg argv cmdline pid sigs st :
  count_fg (Shell.jobs st) = 0%nat →
  match snd (launch bg argv cmdline pid sigs st) with
  | Returned st' => count_fg (Shell.jobs st') = 0%nat
  | Blocked st' => (count_fg (Shell.jobs st') <= 1)%nat
  | _ => True
  end.
Proof.
  intros Hc. unfold launch.
  destruct (redirections argv None None) as [[cells in_file] out_file].
  destruct (decide (pid < 0)); [done|]. destruct (decide (pid = 0)); [done|].
  destruct (addjob _ _ _ _) as [[ret jobs']|] eqn:Hadd; [|done].
  apply addjob_effect in Hadd
    as [[-> ->]|(-> & Hpid & i & old & k & Hi & _ & ->)];
    destruct (decide (bg = 0)) as [Hbg|Hbg]; simpl.
  - pose proof (waitfg_outcome pid sigs (with_jobs st (Shell.jobs st))) as Hw.
    destruct (waitfg _ _ _); [| |done..]; simpl in Hw.
    + destruct Hw as [-> _]. done.
    + rewrite Hw. lia.
  - done.
  - set (jobs' := <[i := Job.mk pid k FG cmdline]> (Shell.jobs st)).
    pose proof (waitfg_outcome pid sigs (with_jobs st jobs')) as Hw.
    pose proof (count_fg_insert _ i old (Job.mk pid k FG cmdline) Hi) as Hins.
    fold jobs' in Hins. simpl in Hins.
    destruct (waitfg _ _ _); [| |done..]; simpl in Hw.
    + destruct Hw as [_ Hne]. exfalso. apply Hne.
      by eapply fgpid_insert_fg.
    + rewrite Hw. destruct (decide (Job.state old = FG)); lia.
  - pose proof (count_fg_insert _ i old (Job.mk pid k BG cmdline) Hi) as Hins.
    simpl in Hins. destruct (decide (Job.state old = FG)); lia.
Qed.

Lemma shell_step_fg op st :
  count_fg (Shell.jobs st) = 0%nat →
  match shell_step op st with
  | Returned st' => count_fg (Shell.jobs st') = 0%nat
  | Blocked st' => (count_fg (Shell.jobs st') <= 1)%nat
  | _ => True
  end.
Proof.
  intros Hc. destruct op as [cmdline pid sigs|sig|argv]; simpl.
  - unfold eval. destruct (parseline cmdline) as [[argv bg]|]; [|done].
    destruct argv as [|a argv]; [done|].
    destruct (decide (builtin_cmd (a :: argv) = 0)); [|done].
    by apply launch_fg.
  - destruct (deliver sig st) as [st'|] eqn:Hdel; [|done].
    apply deliver_jobs in Hdel. by rewrite Hdel.
  - done.
Qed.

Lemma shell_run_fg ops st0 st :
  count_fg (Shell.jobs st0) = 0%nat →
  outcome_state (shell_run ops st0) = Some st →
  (count_fg (Shell.jobs st) <= 1)%nat.
Proof.
  revert st0. induction ops as [|op ops IH]; intros st0 Hc; simpl.
  - intros [= <-]. lia.
  - pose proof (shell_step_fg op st0 Hc) as Hstep.
    destruct (shell_step op st0); simpl; try done.
    + by apply IH.
    + by intros [= <-].
Qed.

(** C4. In every state that the shell reaches from the initialised job
    list, by evaluating lines, by handling signals and by the bg/fg
    routine, the number of jobs in state [FG] is 0 or 1. *)
Theorem at_most_one_foreground ops st :
  outcome_state (shell_run ops shell_init) = Some st →
  count_fg (Shell.jobs st) = 0%nat ∨ count_fg (Shell.jobs st) = 1%nat.
Proof.
  intros Hrun. apply shell_run_fg in Hrun; [lia|reflexivity].
Qed.

Lemma at_most_one_foreground_witness :
  ∃ st,
    outcome_state
      (shell_run [OpLine ("ls" +:+ nl) 100 []; OpSignal SIGCHLD;
                  OpBgfg ["fg"; "%1"]; OpLine ("cat &" +:+ nl) 101 []]
         shell_init) = Some st ∧
    (count_fg (Shell.jobs st) = 0%nat ∨ count_fg (Shell.jobs st) = 1%nat).
Proof.
  eexists. split; [reflexivity|].
  apply (at_most_one_foreground
           [OpLine ("ls" +:+ nl) 100 []; OpSignal SIGCHLD;
            OpBgfg ["fg"; "%1"]; OpLine ("cat &" +:+ nl) 101 []]).
  reflexivity.
Defined.



(** The trace of a foreground launch, in full. *)
Example launch_fg_trace :
  fst (launch 0 ["ls"] ("ls" +:+ nl) 100 [SIGCHLD] shell_init)
  = [EvBlock; EvFork 100; EvAddjob 100 FG 1; EvUnblock; EvWaitfg 100].
Proof. reflexivity. Qed.

(** ** Where the code departs from its documentation *)

(** C1. [parseline] does not return the background flag: on every line it
    returns [argc], the number of arguments.  On the line "ls" it returns
    1, and [eval], which takes the result for [bg], launches the command
    as a background job: the job is added with state [BG], its line is
    printed, and [waitfg] is not called.  With a trailing '&' the '&'
    stays in [argv] as an argument. *)
Theorem parseline_returns_argc :
  (∀ cmdline argv n,
     parseline cmdline = Some (argv, n) → n = Z.of_nat (length argv)) ∧
  parseline ("ls" +:+ nl) = Some (["ls"], 1) ∧
  parseline ("ls &" +:+ nl) = Some (["ls"; "&"], 2) ∧
  eval ("ls" +:+ nl) 100 [] shell_init
  = ([EvBlock; EvFork 100; EvAddjob 100 BG 1; EvJobLine 1 100 ("ls" +:+ nl);
      EvUnblock],
     Returned (Shell.mk (<[0%nat := Job.mk 100 1 BG ("ls" +:+ nl)]> jobs_init) 0)).
Proof. split_and!; [apply parseline_argc|reflexivity..]. Qed.

(** On no line does [eval] add a job in the foreground. *)
Lemma eval_never_foreground cmdline pid sigs st p s r :
  EvAddjob p s r ∈ fst (eval cmdline pid sigs st) → s = BG.
Proof.
  unfold eval. destruct (parseline cmdline) as [[argv bg]|] eqn:Hp;
    [|by intros ?%elem_of_nil].
  destruct argv as [|a argv]; [by intros ?%elem_of_nil|].
  destruct (eval_launch cmdline (a :: argv) bg pid sigs st Hp) as [Hbg _]; [done|].
  destruct (decide (builtin_cmd (a :: argv) = 0)); [|by intros ?%elem_of_nil].
  unfold launch. destruct (redirections _ _ _) as [[cells in_file] out_file].
  rewrite (decide_False (P := bg = 0)) by done.
  repeat case_match; simpl; rewrite ?elem_of_cons, ?elem_of_nil;
    intros Hin; repeat destruct Hin as [Hin|Hin]; by simplify_eq.
Qed.

(** C6. [sigchld_handler] does nothing: whatever has happened to a child,
    the job list is the same after the handler as before.  The job of a
    child that has terminated is still found under its pid, in the state
    it had. *)
Theorem sigchld_handler_no_update :
  (∀ sig st, sigchld_handler sig st = st) ∧
  getjobpid
    (Shell.jobs
       (sigchld_handler SIGCHLD
          (Shell.mk (<[0%nat := Job.mk 100 1 BG ("ls" +:+ nl)]> jobs_init) 0)))
    100
  = Some (0%nat, Job.mk 100 1 BG ("ls" +:+ nl)).
Proof. split; reflexivity. Qed.

(** C7. [builtin_cmd] returns 0 for every argument vector, the four
    built-in names included.  [eval] hands "quit" to the launch path: it
    forks, the child is to execute a program called quit, and the parent
    adds a job for it. *)
Theorem builtin_cmd_recognises_nothing :
  (∀ argv, builtin_cmd argv = 0) ∧
  builtin_cmd ["quit"] = 0 ∧ builtin_cmd ["jobs"] = 0 ∧
  builtin_cmd ["bg"; "%1"] = 0 ∧ builtin_cmd ["fg"; "%1"] = 0 ∧
  snd (eval ("quit" +:+ nl) 0 [] shell_init) = Child ["quit"] None None ∧
  eval ("quit" +:+ nl) 100 [] shell_init
  = ([EvBlock; EvFork 100; EvAddjob 100 BG 1; EvJobLine 1 100 ("quit" +:+ nl);
      EvUnblock],
     Returned (Shell.mk (<[0%nat := Job.mk 100 1 BG ("quit" +:+ nl)]> jobs_init) 0)).
Proof. split_and!; reflexivity. Qed.

(** * Further properties of the job list *)

Section job_list_more.
Implicit Types (jobs : list job_t) (j : job_t).

Lemma table_full_live_jids jobs :
  jobs_ok jobs → table_full jobs →
  ∀ m, 1 <= m <= Z.of_nat MAXJOBS → m ∈ live_jids jobs.
Proof.
  intros (Hlen & Hslots & Hnd) Hfull m Hm.
  assert (live_jids jobs ⊆+ Z.of_nat <$> seq 1 MAXJOBS) as Hsub.
  { apply NoDup_submseteq; [done|]. intros k (j & Hj & Hl & <-)%elem_of_live_jids.
    rewrite Forall_forall in Hslots. specialize (Hslots j Hj).
    destruct Hslots as [[? _]|[_ ?]]; [done|].
    apply list_elem_of_fmap. exists (Z.to_nat (Job.jid j)).
    split; [lia|]. apply elem_of_seq. lia. }
  apply submseteq_length_Permutation in Hsub.
  - rewrite Hsub. apply list_elem_of_fmap. exists (Z.to_nat m).
    split; [lia|]. apply elem_of_seq. lia.
  - rewrite length_fmap, length_seq. unfold live_jids. rewrite length_fmap, <- Hlen.
    clear -Hfull. induction Hfull as [|j jobs Hj _ IH]; [done|].
    rewrite filter_cons, decide_True by done. simpl. lia.
Qed.

(** X1. On a well-formed job list [freejid] returns 0 exactly when the
    table is full; otherwise it returns the smallest positive integer
    that is the jid of no live job, which is at most [MAXJOBS]. *)
Theorem freejid_contract jobs :
  jobs_ok jobs →
  ∃ k, freejid jobs = Some k ∧
    (k = 0 ↔ table_full jobs) ∧
    (k ≠ 0 → smallest_free_jid jobs k ∧ k <= Z.of_nat MAXJOBS).
Proof.
  intros Hok. pose proof Hok as (Hlen & Hslots & Hnd).
  destruct (freejid_spec jobs Hslots) as (k & Hk & [[-> Hall]|[Hle Hsm]]).
  - exists 0. split_and!; [done| |done]. split; [intros _|done].
    destruct (decide (table_full jobs)) as [|Hnf]; [done|].
    by apply free_jid_exists in Hall.
  - exists k. destruct Hsm as (H1 & Hfree & Hleast).
    split_and!; [done| |done]. split; [lia|]. intros Hfull. exfalso.
    apply Hfree. apply table_full_live_jids; [done..|lia].
Qed.

Lemma freejid_contract_witness :
  ∃ k, freejid jobs_init = Some k ∧
    (k = 0 ↔ table_full jobs_init) ∧
    (k ≠ 0 → smallest_free_jid jobs_init k ∧ k <= Z.of_nat MAXJOBS).
Proof.
  apply freejid_contract. apply (bool_decide_unpack _). vm_compute. exact I.
Defined.

Lemma freejid_mark_None jobs taken :
  freejid_mark jobs taken = None ↔
  Exists (λ j, Job.jid j ≠ 0 ∧ ¬ (0 <= Job.jid j < Z.of_nat (length taken))) jobs.
Proof.
  revert taken. induction jobs as [|j jobs IH]; intros taken; simpl.
  - split; [done|]. by intros ?%Exists_nil.
  - rewrite Exists_cons. destruct (decide (Job.jid j = 0)) as [Hz|Hz].
    + rewrite IH. split; [by right|]. by intros [[? _]|?].
    + destruct (decide (0 <= Job.jid j < Z.of_nat (length taken))) as [Hin|Hout].
      * rewrite IH, length_insert. split; [by right|]. by intros [[_ ?]|?].
      * split; [by left|done].
Qed.

(** X2. [freejid] stores out of the bounds of [taken] exactly when some
    slot has a jid below 0 or above [MAXJOBS]; [addjob], which calls it
    for every pid above 0, is undefined on the same job lists. *)
Theorem freejid_defined jobs :
  (freejid jobs = None ↔
   Exists (λ j, Job.jid j < 0 ∨ Z.of_nat MAXJOBS < Job.jid j) jobs) ∧
  ∀ pid state cmdline,
    addjob jobs pid state cmdline = None ↔ 1 <= pid ∧ freejid jobs = None.
Proof.
  split.
  - unfold freejid.
    destruct (freejid_mark jobs (replicate (S MAXJOBS) false)) as [taken|] eqn:Hmark;
      simpl.
    + split; [done|]. intros Hex. exfalso.
      assert (freejid_mark jobs (replicate (S MAXJOBS) false) = None); [|congruence].
      apply freejid_mark_None. eapply Exists_impl; [exact Hex|].
      intros j Hj. rewrite length_replicate, Nat2Z.inj_succ. simpl in Hj. lia.
    + split; [intros _|done]. apply freejid_mark_None in Hmark.
      eapply Exists_impl; [exact Hmark|].
      intros j Hj. rewrite length_replicate, Nat2Z.inj_succ in Hj. simpl. lia.
  - intros pid state cmdline. unfold addjob.
    destruct (decide (pid < 1)); [split; [done|lia]|].
    destruct (freejid jobs) as [k|]; simpl; [|split; [intros _; split; [lia|done]|done]].
    split; [|by intros [_ ?]].
    destruct (decide (k = 0)); [done|]. by destruct (list_find _ jobs) as [[??]|].
Qed.

(** *** Lists reached from the initialised one *)

Lemma slots_numbered_init : slots_numbered jobs_init.
Proof.
  split; [done|]. intros i j Hi. left.
  unfold jobs_init, initjobs in Hi. rewrite list_lookup_fmap in Hi.
  destruct (replicate _ _ !! i); by simplify_eq/=.
Qed.

(** The converse of [NoDup_live_jids_distinct]. *)
Lemma distinct_jids_NoDup jobs : distinct_jids jobs → NoDup (live_jids jobs).
Proof.
  unfold distinct_jids, live_jids.
  induction jobs as [|j jobs IH]; intros Hd; [by apply NoDup_nil|].
  assert (NoDup (Job.jid <$> filter live jobs)) as Hnd.
  { apply IH. intros i1 i2 j1 j2 H1 H2 L1 L2 Heq.
    by specialize (Hd (S i1) (S i2) j1 j2 H1 H2 L1 L2 Heq) as [= ->]. }
  rewrite filter_cons. destruct (decide (live j)) as [Hl|]; [|done].
  rewrite fmap_cons. apply NoDup_cons. split; [|done].
  intros (j' & Heq & Hin)%list_elem_of_fmap.
  apply list_elem_of_filter in Hin as [Hl' Hin].
  apply list_elem_of_lookup in Hin as (i' & Hi').
  by specialize (Hd 0%nat (S i') j j' eq_refl Hi' Hl Hl' Heq).
Qed.

Lemma slots_numbered_ok jobs : slots_numbered jobs → jobs_ok jobs.
Proof.
  intros [Hlen Hnum]. split_and!; [done|..].
  - apply Forall_lookup. intros i j Hi.
    pose proof (lookup_lt_Some _ _ _ Hi) as Hlt.
    destruct (Hnum i j Hi) as [->|[? ?]]; [by left|right]. lia.
  - apply distinct_jids_NoDup. intros i1 i2 j1 j2 H1 H2 L1 L2 Heq.
    destruct (Hnum i1 j1 H1) as [->|[_ Hj1]]; [done|].
    destruct (Hnum i2 j2 H2) as [->|[_ Hj2]]; [done|]. lia.
Qed.

(** On a numbered list [addjob] fills the first cleared slot, and the jid
    it assigns is the number of that slot. *)
Lemma addjob_numbered jobs pid state cmdline ret jobs' :
  slots_numbered jobs → addjob jobs pid state cmdline = Some (ret, jobs') →
  (ret = 0 ∧ jobs' = jobs) ∨
  (ret = 1 ∧ 1 <= pid ∧
   ∃ i, list_find (λ j, Job.pid j = 0) jobs = Some (i, cleared) ∧
     jobs' = <[i := Job.mk pid (Z.of_nat i + 1) state cmdline]> jobs).
Proof.
  intros Hnum Hadd. pose proof (slots_numbered_ok jobs Hnum) as (Hlen & Hslots & _).
  destruct Hnum as [_ Hnum].
  destruct (addjob_cases jobs pid state cmdline Hlen Hslots)
    as [[Heq _]|(Hpid & _ & i & old & k & Hfind & _ & (Hk1 & Hfree & Hleast) & Heq)];
    rewrite Heq in Hadd; simplify_eq; [by left|right].
  split_and!; [done..|]. exists i.
  pose proof Hfind as (Hi & Hz & Hfirst)%list_find_Some.
  assert (old = cleared) as ->.
  { destruct (Hnum i old Hi) as [->|[? _]]; [done|lia]. }
  assert (k = Z.of_nat i + 1) as ->; [|done].
  assert (Z.of_nat i + 1 ∉ live_jids jobs) as Hslot_free.
  { intros (j & Hj & Hl & Hjid)%elem_of_live_jids.
    apply list_elem_of_lookup in Hj as (i' & Hi').
    destruct (Hnum i' j Hi') as [->|[_ Hj']]; [done|].
    assert (i' = i) as -> by lia. by simplify_eq. }
  assert (∀ m, 1 <= m <= Z.of_nat i → m ∈ live_jids jobs) as Hbelow.
  { intros m Hm. pose proof (lookup_lt_Some _ _ _ Hi) as Hlt.
    destruct (lookup_lt_is_Some_2 jobs (Z.to_nat (m - 1))) as [j Hj]; [lia|].
    apply elem_of_live_jids. exists j.
    assert (Job.pid j ≠ 0) as Hlive by (eapply Hfirst; [done|lia]).
    split_and!; [by eapply list_elem_of_lookup_2|done|].
    destruct (Hnum _ j Hj) as [->|[_ ->]]; [done|lia]. }
  destruct (decide (k <= Z.of_nat i)) as [|Hgt]; [by specialize (Hbelow k ltac:(lia))|].
  destruct (decide (Z.of_nat i + 1 < k)) as [Hlt|]; [|lia].
  by specialize (Hleast (Z.of_nat i + 1) ltac:(lia)).
Qed.

Lemma job_step_numbered op jobs jobs' :
  slots_numbered jobs → job_step op jobs = Some jobs' → slots_numbered jobs'.
Proof.
  intros Hnum Hstep. destruct op as [pid state cmdline|pid]; simpl in Hstep.
  - destruct (addjob jobs pid state cmdline) as [[ret jobs1]|] eqn:Hadd; simplify_eq/=.
    destruct (addjob_numbered _ _ _ _ _ _ Hnum Hadd)
      as [[_ ->]|(_ & Hpid & i & Hfind & ->)]; [done|].
    destruct Hnum as [Hlen Hnum]. split; [by rewrite length_insert|].
    intros i' j' [(-> & <- & _)|[_ Hi']]%list_lookup_insert_Some; [by right|eauto].
  - simplify_eq.
    destruct (deletejob_cases jobs pid) as [[-> _]|(_ & i & old & _ & ->)]; [done|].
    simpl. destruct Hnum as [Hlen Hnum]. split; [by rewrite length_insert|].
    intros i' j' [(-> & <- & _)|[_ Hi']]%list_lookup_insert_Some; [by left|eauto].
Qed.

Lemma job_run_numbered ops jobs jobs' :
  slots_numbered jobs → job_run ops jobs = Some jobs' → slots_numbered jobs'.
Proof.
  revert jobs. induction ops as [|op ops IH]; intros jobs Hnum Hrun; simpl in Hrun.
  - by simplify_eq.
  - destruct (job_step op jobs) as [jobs1|] eqn:Hstep; simplify_eq/=.
    eapply IH; [|done]. by eapply job_step_numbered.
Qed.

(** X3. In every job list reached from the initialised one by [addjob]
    and [deletejob] calls, a slot is either cleared (pid 0, jid 0, state
    [UNDEF], empty command line) or holds a job with a pid of at least 1
    whose jid is the position of the slot, counted from 1. *)
Theorem jid_is_slot_number ops jobs i j :
  job_run ops jobs_init = Some jobs → jobs !! i = Some j →
  j = cleared ∨ (1 <= Job.pid j ∧ Job.jid j = Z.of_nat i + 1).
Proof.
  intros Hrun Hi.
  by apply (job_run_numbered ops jobs_init jobs slots_numbered_init Hrun).
Qed.

Lemma jid_is_slot_number_witness :
  Job.mk 14 2 BG "d" = cleared ∨
  (1 <= Job.pid (Job.mk 14 2 BG "d") ∧
   Job.jid (Job.mk 14 2 BG "d") = Z.of_nat 1 + 1).
Proof.
  apply (jid_is_slot_number
           [OpAdd 11 BG "a"; OpAdd 12 BG "b"; OpAdd 13 BG "c"; OpDel 12;
            OpAdd 14 BG "d"]
           (<[0%nat := Job.mk 11 1 BG "a"]>
            (<[1%nat := Job.mk 14 2 BG "d"]>
             (<[2%nat := Job.mk 13 3 BG "c"]> jobs_init))) 1%nat);
    reflexivity.
Defined.

Lemma getjobjid_numbered jobs jid i j :
  slots_numbered jobs →
  (getjobjid jobs jid = Some (i, j) ↔
   1 <= jid ∧ Z.of_nat i = jid - 1 ∧ jobs !! i = Some j ∧ live j).
Proof.
  intros [_ Hnum].
  unfold getjobjid. destruct (decide (jid < 1)) as [|Hjid]; [split; [done|lia]|].
  rewrite list_find_Some. split.
  - intros (Hi & <- & _). destruct (Hnum i j Hi) as [->|[Hp Hj]]; [done|].
    split_and!; [lia|lia|done|unfold live; lia].
  - intros (_ & Hij & Hi & Hl).
    destruct (Hnum i j Hi) as [->|[_ Hj]]; [done|].
    split_and!; [done|lia|]. intros i' j' Hi' Hlt Hj'.
    destruct (Hnum i' j' Hi') as [->|[_ ?]]; simpl in *; lia.
Qed.

(** X4. In such a list [getjobjid] is a direct access: it finds a job
    under [jid] exactly when slot [jid - 1] is in use, and that slot is
    the one it returns. *)
Theorem getjobjid_direct ops jobs jid i j :
  job_run ops jobs_init = Some jobs →
  (getjobjid jobs jid = Some (i, j) ↔
   1 <= jid ∧ Z.of_nat i = jid - 1 ∧ jobs !! i = Some j ∧ live j).
Proof.
  intros Hrun. apply getjobjid_numbered.
  by apply (job_run_numbered ops jobs_init jobs slots_numbered_init).
Qed.

Lemma getjobjid_direct_witness :
  getjobjid (<[0%nat := Job.mk 11 1 BG "a"]> jobs_init) 1
    = Some (0%nat, Job.mk 11 1 BG "a") ↔
  1 <= 1 ∧ Z.of_nat 0 = 1 - 1 ∧
  <[0%nat := Job.mk 11 1 BG "a"]> jobs_init !! 0%nat = Some (Job.mk 11 1 BG "a") ∧
  live (Job.mk 11 1 BG "a").
Proof.
  apply (getjobjid_direct [OpAdd 11 BG "a"]). reflexivity.
Defined.

(** X5. In such a list the jid that [pid2jid] reports for a pid leads
    [getjobjid] to the very slot that [getjobpid] finds for the pid, and
    [pid2jid] returns 0 exactly when [getjobpid] finds nothing. *)
Theorem pid2jid_roundtrip ops jobs pid :
  job_run ops jobs_init = Some jobs →
  (pid2jid jobs pid = 0 ↔ getjobpid jobs pid = None) ∧
  ∀ i j, getjobpid jobs pid = Some (i, j) →
    pid2jid jobs pid = Job.jid j ∧
    getjobjid jobs (pid2jid jobs pid) = Some (i, j).
Proof.
  intros Hrun.
  pose proof (job_run_numbered ops jobs_init jobs slots_numbered_init Hrun)
    as Hnumbered.
  pose proof Hnumbered as [_ Hnum].
  assert (∀ i j, getjobpid jobs pid = Some (i, j) →
            pid2jid jobs pid = Job.jid j ∧ 1 <= Job.jid j ∧
            jobs !! i = Some j ∧ live j ∧ Job.jid j = Z.of_nat i + 1) as Hfound.
  { intros i j. unfold getjobpid, pid2jid.
    destruct (decide (pid < 1)); [done|]. intros Hfind. rewrite Hfind.
    apply list_find_Some in Hfind as (Hi & Hp & _).
    destruct (Hnum i j Hi) as [->|[? ?]]; [simpl in *; lia|].
    split_and!; [done|lia|done|unfold live; lia|done]. }
  split.
  - destruct (getjobpid jobs pid) as [[i j]|] eqn:Hget.
    + destruct (Hfound i j eq_refl) as (-> & ? & _). split; [lia|done].
    + split; [done|intros _]. unfold getjobpid, pid2jid in *.
      destruct (decide (pid < 1)); [done|]. by rewrite Hget.
  - intros i j Hget. destruct (Hfound i j Hget) as (-> & Hjid & Hi & Hl & Hij).
    split; [done|]. apply getjobjid_numbered; [done|].
    split_and!; [done|lia|done|done].
Qed.

Lemma pid2jid_roundtrip_witness :
  (pid2jid (<[0%nat := Job.mk 11 1 BG "a"]> jobs_init) 11 = 0 ↔
   getjobpid (<[0%nat := Job.mk 11 1 BG "a"]> jobs_init) 11 = None) ∧
  ∀ i j, getjobpid (<[0%nat := Job.mk 11 1 BG "a"]> jobs_init) 11 = Some (i, j) →
    pid2jid (<[0%nat := Job.mk 11 1 BG "a"]> jobs_init) 11 = Job.jid j ∧
    getjobjid (<[0%nat := Job.mk 11 1 BG "a"]> jobs_init)
      (pid2jid (<[0%nat := Job.mk 11 1 BG "a"]> jobs_init) 11) = Some (i, j).
Proof.
  apply (pid2jid_roundtrip [OpAdd 11 BG "a"]). reflexivity.
Defined.

(** X6. In such a list, adding a job under a pid that no slot holds and
    deleting that pid again gives back the list as it was, slot by slot. *)
Theorem add_delete_restores ops jobs pid state cmdline jobs1 :
  job_run ops jobs_init = Some jobs → pid_absent jobs pid →
  addjob jobs pid state cmdline = Some (1, jobs1) →
  deletejob jobs1 pid = (1, jobs).
Proof.
  intros Hrun Habs Hadd.
  pose proof (job_run_numbered ops jobs_init jobs slots_numbered_init Hrun) as Hnum.
  destruct (addjob_numbered _ _ _ _ _ _ Hnum Hadd)
    as [[? _]|(_ & Hpid & i & Hfind & ->)]; [done|].
  apply list_find_Some in Hfind as (Hi & _).
  pose proof (lookup_lt_Some _ _ _ Hi) as Hlt.
  unfold deletejob. rewrite decide_False by lia.
  assert (list_find (λ j, Job.pid j = pid)
            (<[i := Job.mk pid (Z.of_nat i + 1) state cmdline]> jobs)
          = Some (i, Job.mk pid (Z.of_nat i + 1) state cmdline)) as ->.
  { apply list_find_Some. split_and!; [by apply list_lookup_insert_eq|done|].
    intros i' j' Hi' Hlt'. rewrite list_lookup_insert_ne in Hi' by lia.
    by eapply Forall_lookup_1 in Habs. }
  by rewrite list_insert_insert_eq, list_insert_id.
Qed.

Lemma add_delete_restores_witness :
  deletejob (<[0%nat := Job.mk 100 1 BG "ls"]> jobs_init) 100 = (1, jobs_init).
Proof.
  apply (add_delete_restores [] jobs_init 100 BG "ls").
  - reflexivity.
  - apply (bool_decide_unpack _). vm_compute. exact I.
  - reflexivity.
Defined.

(** *** Counting the live jobs *)

Lemma count_live_full jobs : table_full jobs ↔ count_live jobs = length jobs.
Proof.
  unfold table_full, count_live. split.
  - intros Hfull. induction Hfull as [|j jobs Hj _ IH]; [done|].
    rewrite filter_cons, decide_True by done. simpl. by rewrite IH.
  - intros Hlen. apply Forall_forall. intros j Hj.
    destruct (decide (live j)) as [|Hdead]; [done|].
    pose proof (length_filter_lt live jobs j Hj Hdead). lia.
Qed.

Lemma count_live_insert jobs i old new :
  jobs !! i = Some old →
  (count_live (<[i := new]> jobs) + (if decide (live old) then 1 else 0)
   = count_live jobs + (if decide (live new) then 1 else 0))%nat.
Proof.
  intros Hi. pose proof (lookup_lt_Some _ _ _ Hi) as Hlt.
  rewrite insert_take_drop by done.
  rewrite <- (take_drop_middle jobs i old Hi) at 3.
  unfold count_live. rewrite !filter_app, !filter_cons, !length_app.
  do 2 case_decide; simpl; lia.
Qed.

(** X7. On a well-formed job list [addjob] raises the number of live
    jobs by what it returns (1 on success, 0 on failure) and [deletejob]
    lowers it by what it returns; the number never exceeds [MAXJOBS], and
    [addjob] with a pid of at least 1 succeeds exactly when it is below
    [MAXJOBS]. *)
Theorem live_count jobs pid state cmdline :
  jobs_ok jobs →
  (count_live jobs <= MAXJOBS)%nat ∧
  (∃ ret jobs',
     addjob jobs pid state cmdline = Some (ret, jobs') ∧
     Z.of_nat (count_live jobs') = Z.of_nat (count_live jobs) + ret ∧
     (1 <= pid → (ret = 1 ↔ (count_live jobs < MAXJOBS)%nat))) ∧
  Z.of_nat (count_live (snd (deletejob jobs pid))) + fst (deletejob jobs pid)
  = Z.of_nat (count_live jobs).
Proof.
  intros (Hlen & Hslots & _).
  assert (count_live jobs <= MAXJOBS)%nat as Hle.
  { rewrite <- Hlen. unfold count_live. apply length_filter. }
  split_and!; [done|..].
  - destruct (addjob_cases jobs pid state cmdline Hlen Hslots)
      as [[Heq Hwhy]|(Hpid & Hnf & i & old & k & Hfind & _ & _ & Heq)].
    + exists 0, jobs. split_and!; [done|lia|]. intros Hpid.
      destruct Hwhy as [Hfull%count_live_full|?]; lia.
    + exists 1, (<[i := Job.mk pid k state cmdline]> jobs).
      apply list_find_Some in Hfind as (Hi & Hz & _).
      pose proof (count_live_insert jobs i old (Job.mk pid k state cmdline) Hi) as Hc.
      rewrite decide_False in Hc by (unfold live; tauto).
      rewrite decide_True in Hc by (unfold live; simpl; lia).
      split_and!; [done|lia|]. intros _. split; [intros _|done].
      rewrite count_live_full in Hnf. lia.
  - destruct (deletejob_cases jobs pid) as [[-> _]|(Hpid & i & old & Hfind & ->)];
      simpl; [lia|].
    apply list_find_Some in Hfind as (Hi & Hp & _).
    pose proof (count_live_insert jobs i old (Job.mk 0 0 UNDEF "") Hi) as Hc.
    rewrite decide_True in Hc by (unfold live; lia).
    rewrite decide_False in Hc by (unfold live; simpl; tauto). lia.
Qed.

Lemma live_count_witness :
  (count_live jobs_init <= MAXJOBS)%nat ∧
  (∃ ret jobs',
     addjob jobs_init 100 BG "ls" = Some (ret, jobs') ∧
     Z.of_nat (count_live jobs') = Z.of_nat (count_live jobs_init) + ret ∧
     (1 <= 100 → (ret = 1 ↔ (count_live jobs_init < MAXJOBS)%nat))) ∧
  Z.of_nat (count_live (snd (deletejob jobs_init 100))) + fst (deletejob jobs_init 100)
  = Z.of_nat (count_live jobs_init).
Proof.
  apply (live_count jobs_init 100 BG "ls").
  apply (bool_decide_unpack _). vm_compute. exact I.
Defined.

(** X8. In a job list reached from the initialised one by [addjob] and
    [deletejob] calls, [fgpid] returns 0 exactly when no job is in state
    [FG]; when it returns another value, that is the pid, at least 1, of
    a slot in state [FG], and [getjobpid] finds a job under it. *)
Theorem fgpid_reports_foreground ops jobs :
  job_run ops jobs_init = Some jobs →
  (fgpid jobs = 0 ↔ count_fg jobs = 0%nat) ∧
  (fgpid jobs ≠ 0 →
   1 <= fgpid jobs ∧
   (∃ i j, jobs !! i = Some j ∧ Job.state j = FG ∧ Job.pid j = fgpid jobs) ∧
   is_Some (getjobpid jobs (fgpid jobs))).
Proof.
  intros Hrun.
  pose proof (job_run_numbered ops jobs_init jobs slots_numbered_init Hrun)
    as [_ Hnum].
  unfold fgpid. destruct (list_find _ jobs) as [[i j]|] eqn:Hfind.
  - apply list_find_Some in Hfind as (Hi & Hfg & _).
    destruct (Hnum i j Hi) as [->|[Hp _]]; [done|].
    split.
    + split; [lia|]. intros Hc%count_fg_0.
      by eapply Forall_lookup_1 in Hc.
    + intros _. split_and!; [done|by exists i, j|].
      unfold getjobpid. rewrite decide_False by lia.
      eapply list_find_elem_of; [by eapply list_elem_of_lookup_2|done].
  - split; [|done]. split; [intros _|done].
    apply count_fg_0. by apply list_find_None in Hfind.
Qed.

Lemma fgpid_reports_foreground_witness :
  (fgpid (<[0%nat := Job.mk 11 1 FG "a"]> jobs_init) = 0 ↔
   count_fg (<[0%nat := Job.mk 11 1 FG "a"]> jobs_init) = 0%nat) ∧
  (fgpid (<[0%nat := Job.mk 11 1 FG "a"]> jobs_init) ≠ 0 →
   1 <= fgpid (<[0%nat := Job.mk 11 1 FG "a"]> jobs_init) ∧
   (∃ i j, <[0%nat := Job.mk 11 1 FG "a"]> jobs_init !! i = Some j ∧
      Job.state j = FG ∧
      Job.pid j = fgpid (<[0%nat := Job.mk 11 1 FG "a"]> jobs_init)) ∧
   is_Some (getjobpid (<[0%nat := Job.mk 11 1 FG "a"]> jobs_init)
              (fgpid (<[0%nat := Job.mk 11 1 FG "a"]> jobs_init)))).
Proof.
  apply (fgpid_reports_foreground [OpAdd 11 FG "a"]). reflexivity.
Defined.

(** *** Initialisation and lookups *)

Lemma initjobs_replicate jobs : initjobs jobs = replicate (length jobs) cleared.
Proof.
  unfold initjobs. induction jobs as [|j jobs IH]; [done|].
  rewrite fmap_cons. simpl. by f_equal.
Qed.

Lemma freejid_mark_cleared n taken :
  freejid_mark (replicate n cleared) taken = Some taken.
Proof. induction n as [|n IH]; [done|]. exact IH. Qed.

Lemma listjobs_from_cleared n i : listjobs_from i (replicate n cleared) = [].
Proof.
  revert i. induction n as [|n IH]; intros i; [done|]. exact (IH (S i)).
Qed.

(** X9. [initjobs] empties any job list: afterwards no pid and no jid is
    found, [pid2jid] and [fgpid] return 0, [deletejob] fails, the first
    free jid is 1 and [listjobs] prints nothing.  On a list of [MAXJOBS]
    slots the result is the list that [main] starts with. *)
Theorem initjobs_empties jobs :
  (length jobs = MAXJOBS → initjobs jobs = jobs_init) ∧
  (∀ id,
     getjobpid (initjobs jobs) id = None ∧
     getjobjid (initjobs jobs) id = None ∧
     pid2jid (initjobs jobs) id = 0 ∧
     deletejob (initjobs jobs) id = (0, initjobs jobs)) ∧
  fgpid (initjobs jobs) = 0 ∧
  freejid (initjobs jobs) = Some 1 ∧
  listjobs (initjobs jobs) = [].
Proof.
  rewrite initjobs_replicate. generalize (length jobs). intros n.
  assert (∀ (P : job_t → Prop) `{!∀ j, Decision (P j)},
            ¬ P cleared → list_find P (replicate n cleared) = None) as Hnone.
  { intros P ? HP. apply list_find_None, Forall_forall.
    by intros j [-> _]%elem_of_replicate. }
  split_and!.
  - by intros ->.
  - intros id. unfold getjobpid, getjobjid, pid2jid, deletejob.
    destruct (decide (id < 1)); [done|].
    rewrite !Hnone; [done|unfold cleared; simpl; lia..].
  - unfold fgpid. rewrite Hnone; [done|]. unfold cleared, UNDEF, FG. simpl. lia.
  - unfold freejid. rewrite freejid_mark_cleared. reflexivity.
  - apply listjobs_from_cleared.
Qed.

(** X10. [getjobpid] finds nothing exactly when [pid] is below 1 or no
    slot holds it; what it finds is the first slot that holds [pid], so
    that of two jobs with the same pid the one in the later slot is never
    returned. *)
Theorem getjobpid_contract jobs pid :
  (getjobpid jobs pid = None ↔ pid < 1 ∨ pid_absent jobs pid) ∧
  ∀ i j,
    getjobpid jobs pid = Some (i, j) ↔
    1 <= pid ∧ jobs !! i = Some j ∧ Job.pid j = pid ∧
    ∀ i' j', (i' < i)%nat → jobs !! i' = Some j' → Job.pid j' ≠ pid.
Proof.
  unfold getjobpid. destruct (decide (pid < 1)) as [|Hpid].
  - split; [split; [by left|done]|]. intros i j. split; [done|lia].
  - split.
    + rewrite list_find_None. unfold pid_absent. split; [by right|].
      by intros [?|?].
    + intros i j. rewrite list_find_Some. split.
      * intros (Hi & Hp & Hfirst). split_and!; [lia|done..|].
        intros i' j' ??. by eapply Hfirst.
      * intros (_ & Hi & Hp & Hfirst). split_and!; [done..|].
        intros i' j' ??. by eapply Hfirst.
Qed.

(** *** The listing *)

Lemma elem_of_listjobs_from k jobs ln :
  ln ∈ listjobs_from k jobs ↔
  ∃ i j, jobs !! i = Some j ∧ Job.pid j ≠ 0 ∧
    ln = mk_line (Job.jid j) (Job.pid j) (status_of (k + i) (Job.state j))
           (Job.cmdline j).
Proof.
  revert k. induction jobs as [|j jobs IH]; intros k; simpl.
  - rewrite elem_of_nil. split; [done|]. by intros (i & j & ? & _).
  - assert ((∃ i j0, jobs !! i = Some j0 ∧ Job.pid j0 ≠ 0 ∧
               ln = mk_line (Job.jid j0) (Job.pid j0)
                      (status_of (S k + i) (Job.state j0)) (Job.cmdline j0)) ↔
            (∃ i j0, (j :: jobs) !! S i = Some j0 ∧ Job.pid j0 ≠ 0 ∧
               ln = mk_line (Job.jid j0) (Job.pid j0)
                      (status_of (k + S i) (Job.state j0)) (Job.cmdline j0))) as Hshift.
    { split; intros (i & j0 & Hi & Hp & ->); exists i, j0;
        (split_and!; [done..|]); do 2 f_equal; lia. }
    destruct (decide (Job.pid j ≠ 0)) as [Hl|Hd].
    + rewrite elem_of_cons, IH, Hshift. split.
      * intros [->|(i & j0 & ? & ? & ->)].
        -- exists 0%nat, j. by rewrite Nat.add_0_r.
        -- by exists (S i), j0.
      * intros ([|i] & j0 & Hi & Hp & ->).
        -- left. simplify_eq/=. by rewrite Nat.add_0_r.
        -- right. by exists i, j0.
    + rewrite IH, Hshift. split.
      * intros (i & j0 & ? & ? & ->). by exists (S i), j0.
      * intros ([|i] & j0 & Hi & Hp & ->); [by simplify_eq/=|]. by exists i, j0.
Qed.

(** X11. [listjobs] prints one line for each slot in use and none for
    an unused slot: a line is printed exactly when some slot [i] with a
    pid other than 0 has the jid, pid and command line of the line, the
    status being the name of its state or the internal error for slot
    [i].  The pids of at least 1 that appear in the listing are those
    under which [getjobpid] finds a job. *)
Theorem listjobs_contract jobs :
  length (listjobs jobs) = count_live jobs ∧
  (∀ ln,
     ln ∈ listjobs jobs ↔
     ∃ i j, jobs !! i = Some j ∧ Job.pid j ≠ 0 ∧
       ln = mk_line (Job.jid j) (Job.pid j) (status_of i (Job.state j))
              (Job.cmdline j)) ∧
  ∀ pid, 1 <= pid →
    ((∃ ln, ln ∈ listjobs jobs ∧ ln_pid ln = pid) ↔ is_Some (getjobpid jobs pid)).
Proof.
  split_and!.
  - unfold listjobs, count_live. generalize 0%nat.
    induction jobs as [|j jobs IH]; intros k; [done|]. simpl.
    rewrite filter_cons. unfold live at 1.
    destruct (decide (Job.pid j ≠ 0)); simpl; by rewrite IH.
  - intros ln. unfold listjobs. by rewrite elem_of_listjobs_from.
  - intros pid Hpid. unfold listjobs, getjobpid. rewrite decide_False by lia. split.
    + intros (ln & (i & j & Hi & _ & ->)%elem_of_listjobs_from & Hp). simpl in Hp.
      eapply list_find_elem_of; [by eapply list_elem_of_lookup_2|done].
    + intros [[i j] (Hi & Hp & _)%list_find_Some].
      eexists. split; [|shelve].
      apply elem_of_listjobs_from. exists i, j. split_and!; [done|lia|done].
      Unshelve. done.
Qed.

End job_list_more.

(** * Further properties of the parser *)

Section parser.
Implicit Types (buf rest w : chars) (ts : list (token * nat)).

(** One turn of the loop of [parseline]. *)
Lemma parse_args_turn buf argc argv :
  parse_args buf argc argv =
  match next_delim buf with
  | (buf', Some n) =>
      if decide (argc < MAXARGS) then
        parse_args (skip_spaces (drop (S n) buf')) (argc + 1)
          (argv ++ [string_of_list_ascii (take n buf')])
      else None
  | (buf', None) => if decide (argc < MAXARGS) then Some (argv, argc) else None
  end.
Proof.
  funelim (parse_args buf argc argv).
  all: match goal with H : next_delim _ = _ |- _ => rewrite H end.
  all: match goal with H : decide _ = _ |- _ => rewrite H end.
  all: done.
Qed.

Lemma strchr_first w c rest : c ∉ w → strchr (w ++ c :: rest) c = Some (length w).
Proof.
  intros Hw. unfold strchr.
  assert (list_find (λ a, a = c) (w ++ c :: rest) = Some (length w, c)) as ->; [|done].
  apply list_find_Some. split_and!; [by apply list_lookup_middle|done|].
  intros i a Hi Hlt ->. rewrite lookup_app_l in Hi by done.
  by apply list_elem_of_lookup_2 in Hi.
Qed.

Lemma strchr_none buf c : c ∉ buf → strchr buf c = None.
Proof.
  intros Hc. unfold strchr.
  assert (list_find (λ a, a = c) buf = None) as ->; [|done].
  apply list_find_None, Forall_forall. by intros a Ha ->.
Qed.

Lemma skip_spaces_replicate n buf :
  skip_spaces (replicate n " "%char ++ buf) = skip_spaces buf.
Proof. induction n as [|n IH]; [done|]. exact IH. Qed.

Lemma skip_spaces_spaced ts rest :
  Forall (λ tn, token_ok tn.1) ts → skip_spaces rest = rest →
  skip_spaces (spaced ts ++ rest) = spaced ts ++ rest.
Proof.
  intros Hts Hrest. destruct Hts as [|[t n] ts Ht _]; [done|]. simpl.
  destruct t as [w|w]; simpl in *.
  - destruct Ht as (Hne & Hsp & _). destruct w as [|c w]; [done|]. simpl.
    rewrite decide_False; [done|]. intros ->. apply Hsp. by left.
  - done.
Qed.

Lemma next_delim_plain w tail :
  w ≠ [] → " "%char ∉ w → head w ≠ Some "'"%char →
  next_delim (w ++ " "%char :: tail) = (w ++ " "%char :: tail, Some (length w)).
Proof.
  intros Hne Hsp Hq. rewrite <- (strchr_first w " "%char tail Hsp).
  destruct w as [|c w]; [done|]. simpl in *.
  rewrite decide_False by congruence. done.
Qed.

Lemma next_delim_quoted w tail :
  "'"%char ∉ w →
  next_delim ("'"%char :: w ++ "'"%char :: tail) = (w ++ "'"%char :: tail, Some (length w)).
Proof. intros Hq. simpl. by rewrite strchr_first. Qed.

Lemma drop_past w (c : ascii) tail : drop (S (length w)) (w ++ c :: tail) = tail.
Proof. induction w as [|a w IH]; [done|exact IH]. Qed.

(** One turn of the loop on a well-formed token. *)
Lemma parse_args_token t n tail argc argv :
  token_ok t → argc < MAXARGS →
  parse_args (token_text t ++ replicate (S n) " "%char ++ tail) argc argv =
  parse_args (skip_spaces tail) (argc + 1) (argv ++ [token_arg t]).
Proof.
  intros Ht Hroom. rewrite parse_args_turn.
  change (replicate (S n) " "%char ++ tail)
    with (" "%char :: (replicate n " "%char ++ tail)).
  destruct t as [w|w]; cbn [token_text token_arg token_ok] in *.
  - destruct Ht as (Hne & Hsp & Hq).
    rewrite next_delim_plain by done. rewrite decide_True by done.
    by rewrite take_app_length, drop_past, skip_spaces_replicate.
  - assert (∀ l, ("'"%char :: w ++ ["'"%char]) ++ l = "'"%char :: w ++ "'"%char :: l)
      as -> by (intros l; simpl; by rewrite <- app_assoc).
    rewrite next_delim_quoted by done.
    rewrite decide_True by done.
    rewrite take_app_length, drop_past.
    change (" "%char :: (replicate n " "%char ++ tail))
      with (replicate (S n) " "%char ++ tail).
    by rewrite skip_spaces_replicate.
Qed.

(** The loop stores the arguments of well-formed tokens one by one, as
    long as [argv] has room. *)
Lemma parse_args_spaced ts rest argc argv :
  Forall (λ tn, token_ok tn.1) ts → skip_spaces rest = rest →
  argc + Z.of_nat (length ts) <= MAXARGS →
  parse_args (spaced ts ++ rest) argc argv =
  parse_args rest (argc + Z.of_nat (length ts)) (argv ++ ((λ tn, token_arg tn.1) <$> ts)).
Proof.
  intros Hts Hrest. revert argc argv.
  induction Hts as [|[t n] ts Ht Hts IH]; intros argc argv Hroom.
  - simpl. by rewrite Z.add_0_r, app_nil_r.
  - simpl in Hroom.
    change (spaced ((t, n) :: ts))
      with (token_text t ++ replicate (S n) " "%char ++ spaced ts).
    rewrite <- !app_assoc.
    rewrite parse_args_token by (done || lia).
    rewrite skip_spaces_spaced by done. rewrite IH by lia.
    rewrite fmap_cons, <- app_assoc. simpl. f_equal. lia.
Qed.

Lemma spaced_app ts1 ts2 : spaced (ts1 ++ ts2) = spaced ts1 ++ spaced ts2.
Proof.
  induction ts1 as [|[t n] ts1 IH]; [done|].
  change (spaced (((t, n) :: ts1) ++ ts2))
    with (token_text t ++ replicate (S n) " "%char ++ spaced (ts1 ++ ts2)).
  change (spaced ((t, n) :: ts1))
    with (token_text t ++ replicate (S n) " "%char ++ spaced ts1).
  by rewrite IH, <- !app_assoc.
Qed.

(** With no room left in [argv] the loop runs out of its bounds. *)
Lemma parse_args_full buf argc argv :
  MAXARGS <= argc → parse_args buf argc argv = None.
Proof.
  intros Hfull. rewrite parse_args_turn.
  destruct (next_delim buf) as [buf' [n|]]; by rewrite decide_False by lia.
Qed.

Lemma replace_last_snoc buf (c : ascii) :
  replace_last (buf ++ [c]) = Some (buf ++ [" "%char]).
Proof.
  unfold replace_last. destruct (buf ++ [c]) as [|a l] eqn:Heq.
  - by destruct buf.
  - rewrite <- Heq. f_equal. rewrite length_app. simpl.
    replace (Nat.pred (length buf + 1)) with (length buf + 0)%nat by lia.
    by rewrite insert_app_r.
Qed.

(** A line that begins with spaces and well-formed tokens: [parseline]
    stores their arguments and goes on with what follows them. *)
Lemma parseline_spaced lead ts rest buf c :
  Forall (λ tn, token_ok tn.1) ts → skip_spaces rest = rest →
  buf ++ [" "%char] = replicate lead " "%char ++ spaced ts ++ rest →
  Z.of_nat (length ts) <= MAXARGS →
  parseline (string_of_list_ascii (buf ++ [c])) =
  parse_args rest (Z.of_nat (length ts)) ((λ tn, token_arg tn.1) <$> ts).
Proof.
  intros Hts Hrest Hbuf Hroom. unfold parseline.
  rewrite list_ascii_of_string_of_list_ascii, replace_last_snoc. simpl.
  rewrite Hbuf, skip_spaces_replicate, skip_spaces_spaced by done.
  by rewrite parse_args_spaced by (done || lia).
Qed.

Lemma parse_args_end argc argv :
  argc < MAXARGS → parse_args [] argc argv = Some (argv, argc).
Proof. intros Hroom. rewrite parse_args_turn. simpl. by rewrite decide_True. Qed.

(** X12. A line of well-formed tokens, with any number of spaces before
    the first and one or more after each (the last of them stands for the
    newline, which [parseline] overwrites): [parseline] returns the
    arguments of the tokens in order, quoted text as one argument, and
    their number, provided there are fewer than [MAXARGS] tokens.  With
    [MAXARGS] tokens or more the stores into [argv] leave its bounds. *)
Theorem parseline_tokens lead ts buf c :
  Forall (λ tn, token_ok tn.1) ts →
  buf ++ [" "%char] = replicate lead " "%char ++ spaced ts →
  parseline (string_of_list_ascii (buf ++ [c])) =
  if decide (Z.of_nat (length ts) < MAXARGS)
  then Some ((λ tn, token_arg tn.1) <$> ts, Z.of_nat (length ts))
  else None.
Proof.
  intros Hts Hbuf.
  destruct (decide (Z.of_nat (length ts) < MAXARGS)) as [Hroom|Hfull].
  - rewrite (parseline_spaced lead ts [] buf c); [|done|done| |lia].
    + by apply parse_args_end.
    + by rewrite app_nil_r.
  - rewrite <- (take_drop (Z.to_nat MAXARGS) ts), spaced_app in Hbuf.
    rewrite (parseline_spaced lead (take (Z.to_nat MAXARGS) ts)
               (spaced (drop (Z.to_nat MAXARGS) ts)) buf c).
    + apply parse_args_full. rewrite length_take. unfold MAXARGS in *. lia.
    + by apply Forall_take.
    + rewrite <- (app_nil_r (spaced (drop _ ts))).
      apply skip_spaces_spaced; [by apply Forall_drop|done].
    + done.
    + rewrite length_take. unfold MAXARGS in *. lia.
Qed.

Lemma parseline_tokens_witness :
  parseline
    (string_of_list_ascii
       (list_ascii_of_string "  ls  'a b' -l" ++ ["010"%char])) =
  if decide (Z.of_nat (length [(Plain (list_ascii_of_string "ls"), 1%nat);
                               (Quoted (list_ascii_of_string "a b"), 0%nat);
                               (Plain (list_ascii_of_string "-l"), 0%nat)]) < MAXARGS)
  then Some ((λ tn : token * nat, token_arg tn.1) <$>
               [(Plain (list_ascii_of_string "ls"), 1%nat);
                (Quoted (list_ascii_of_string "a b"), 0%nat);
                (Plain (list_ascii_of_string "-l"), 0%nat)],
             Z.of_nat (length [(Plain (list_ascii_of_string "ls"), 1%nat);
                               (Quoted (list_ascii_of_string "a b"), 0%nat);
                               (Plain (list_ascii_of_string "-l"), 0%nat)]))
  else None.
Proof.
  apply (parseline_tokens 2
           [(Plain (list_ascii_of_string "ls"), 1%nat);
            (Quoted (list_ascii_of_string "a b"), 0%nat);
            (Plain (list_ascii_of_string "-l"), 0%nat)]).
  - apply (bool_decide_unpack _). vm_compute. exact I.
  - reflexivity.
Defined.

(** X13. A line that consists of spaces only, before its last character,
    is ignored by [eval]: nothing is forked, nothing is printed and the
    globals are as before.  The line with the newline alone is the case
    of no space. *)
Theorem eval_blank_line k c pid sigs st :
  eval (string_of_list_ascii (replicate k " "%char ++ [c])) pid sigs st
  = ([], Returned st).
Proof.
  unfold eval.
  rewrite (parseline_spaced (S k) [] [] (replicate k " "%char) c); [|done|done| |done].
  - by rewrite parse_args_end.
  - simpl. rewrite app_nil_r. clear. induction k as [|k IH]; [done|].
    simpl. by rewrite IH.
Qed.

(** X14. An opening quote that is never closed ends the parsing: the
    arguments of the tokens before it are returned, and the quote and all
    that follows it on the line are dropped without a complaint. *)
Theorem parseline_unclosed_quote lead ts junk buf c :
  Forall (λ tn, token_ok tn.1) ts → "'"%char ∉ junk →
  Z.of_nat (length ts) < MAXARGS →
  buf ++ [" "%char] = replicate lead " "%char ++ spaced ts ++ "'"%char :: junk →
  parseline (string_of_list_ascii (buf ++ [c])) =
  Some ((λ tn, token_arg tn.1) <$> ts, Z.of_nat (length ts)).
Proof.
  intros Hts Hjunk Hroom Hbuf.
  rewrite (parseline_spaced lead ts ("'"%char :: junk) buf c); [|done|done|done|lia].
  rewrite parse_args_turn. simpl. rewrite strchr_none by done.
  by rewrite decide_True.
Qed.

Lemma parseline_unclosed_quote_witness :
  parseline
    (string_of_list_ascii (list_ascii_of_string "echo a 'b c" ++ ["010"%char])) =
  Some ((λ tn : token * nat, token_arg tn.1) <$>
          [(Plain (list_ascii_of_string "echo"), 0%nat);
           (Plain (list_ascii_of_string "a"), 0%nat)],
        Z.of_nat (length [(Plain (list_ascii_of_string "echo"), 0%nat);
                          (Plain (list_ascii_of_string "a"), 0%nat)])).
Proof.
  apply (parseline_unclosed_quote 0
           [(Plain (list_ascii_of_string "echo"), 0%nat);
            (Plain (list_ascii_of_string "a"), 0%nat)]
           (list_ascii_of_string "b c ")).
  - apply (bool_decide_unpack _). vm_compute. exact I.
  - apply (bool_decide_unpack _). vm_compute. exact I.
  - reflexivity.
  - reflexivity.
Defined.

End parser.

(** * Further properties of [eval] and of the shell *)

Section redirection.
Implicit Types (argv pre post : list string) (a : string).

(** The cell that the redirection loop leaves for an argument. *)
Lemma redirections_cells argv i o :
  (redirections argv i o).1.1 =
  (λ a, if decide (a = "<"%string ∨ a = ">"%string) then None else Some a) <$> argv.
Proof.
  revert i o. induction argv as [|a argv IH]; intros i o; [done|]. simpl.
  destruct (decide (a = "<"%string)) as [->|Hi].
  - specialize (IH (Some (head argv)) o).
    destruct (redirections argv _ _) as [[cells i'] o']. simpl in *. by rewrite IH.
  - destruct (decide (a = ">"%string)) as [->|Ho].
    + specialize (IH i (Some (head argv))).
      destruct (redirections argv _ _) as [[cells i'] o']. simpl in *. by rewrite IH.
    + specialize (IH i o).
      destruct (redirections argv _ _) as [[cells i'] o']. simpl in *.
      rewrite IH, decide_False; [done|]. by intros [?|?].
Qed.

Lemma redirections_in_none argv i o :
  "<"%string ∉ argv → (redirections argv i o).1.2 = i.
Proof.
  revert i o. induction argv as [|a argv IH]; intros i o Hno; [done|]. simpl.
  apply not_elem_of_cons in Hno as [Ha Hno].
  rewrite decide_False by done.
  destruct (decide (a = ">"%string)).
  - specialize (IH i (Some (head argv)) Hno).
    by destruct (redirections argv _ _) as [[cells i'] o'].
  - specialize (IH i o Hno).
    by destruct (redirections argv _ _) as [[cells i'] o'].
Qed.

Lemma redirections_out_none argv i o :
  ">"%string ∉ argv → (redirections argv i o).2 = o.
Proof.
  revert i o. induction argv as [|a argv IH]; intros i o Hno; [done|]. simpl.
  apply not_elem_of_cons in Hno as [Ha Hno].
  destruct (decide (a = "<"%string)).
  - specialize (IH (Some (head argv)) o Hno).
    by destruct (redirections argv _ _) as [[cells i'] o'].
  - rewrite decide_False by done. specialize (IH i o Hno).
    by destruct (redirections argv _ _) as [[cells i'] o'].
Qed.

Lemma redirections_in_last pre post i o :
  "<"%string ∉ post →
  (redirections (pre ++ "<"%string :: post) i o).1.2 = Some (head post).
Proof.
  intros Hno. revert i o. induction pre as [|a pre IH]; intros i o; simpl.
  - pose proof (redirections_in_none post (Some (head post)) o Hno) as Hp.
    by destruct (redirections post _ _) as [[cells i'] o'].
  - destruct (decide (a = "<"%string)).
    + specialize (IH (Some (head (pre ++ "<"%string :: post))) o).
      by destruct (redirections (pre ++ _) _ _) as [[cells i'] o'].
    + destruct (decide (a = ">"%string)).
      * specialize (IH i (Some (head (pre ++ "<"%string :: post)))).
        by destruct (redirections (pre ++ _) _ _) as [[cells i'] o'].
      * specialize (IH i o).
        by destruct (redirections (pre ++ _) _ _) as [[cells i'] o'].
Qed.

Lemma redirections_out_last pre post i o :
  ">"%string ∉ post →
  (redirections (pre ++ ">"%string :: post) i o).2 = Some (head post).
Proof.
  intros Hno. revert i o. induction pre as [|a pre IH]; intros i o; simpl.
  - pose proof (redirections_out_none post i (Some (head post)) Hno) as Hp.
    by destruct (redirections post _ _) as [[cells i'] o'].
  - destruct (decide (a = "<"%string)).
    + specialize (IH (Some (head (pre ++ ">"%string :: post))) o).
      by destruct (redirections (pre ++ _) _ _) as [[cells i'] o'].
    + destruct (decide (a = ">"%string)).
      * specialize (IH i (Some (head (pre ++ ">"%string :: post)))).
        by destruct (redirections (pre ++ _) _ _) as [[cells i'] o'].
      * specialize (IH i o).
        by destruct (redirections (pre ++ _) _ _) as [[cells i'] o'].
Qed.

(** What [execvp] gets is the longest run of arguments at the front of
    [argv] that has no "<" and no ">" in it. *)
Lemma exec_args_prefix argv :
  ∃ rest,
    argv = exec_args
             ((λ a, if decide (a = "<"%string ∨ a = ">"%string) then None else Some a)
                <$> argv) ++ rest ∧
    Forall (λ a, a ≠ "<"%string ∧ a ≠ ">"%string)
      (exec_args
         ((λ a, if decide (a = "<"%string ∨ a = ">"%string) then None else Some a)
            <$> argv)) ∧
    (rest = [] ∨ head rest = Some "<"%string ∨ head rest = Some ">"%string).
Proof.
  induction argv as [|a argv (rest & Heq & Hall & Hrest)].
  - exists []. split_and!; [done|constructor|by left].
  - rewrite fmap_cons. destruct (decide (a = "<"%string ∨ a = ">"%string)) as [Ha|Ha].
    + exists (a :: argv). simpl. split_and!; [done|constructor|].
      right. destruct Ha as [->| ->]; [by left|by right].
    + exists rest. simpl. split_and!; [by f_equal| |done].
      constructor; [|done]. split; intros ->; apply Ha; [by left|by right].
Qed.

(** The last place at which an argument occurs. *)
Lemma elem_of_split_last a argv :
  a ∈ argv → ∃ pre post, argv = pre ++ a :: post ∧ a ∉ post.
Proof.
  induction argv as [|b argv IH]; [by intros ?%elem_of_nil|].
  intros Hin. destruct (decide (a ∈ argv)) as [Hlater|Hnot].
  - destruct (IH Hlater) as (pre & post & -> & Hpost). by exists (b :: pre), post.
  - apply elem_of_cons in Hin as [->|?]; [|done]. by exists [], argv.
Qed.

(** X15. In the child ([fork] returned 0) the program is executed with
    the arguments that come before the first "<" or ">" of the line, and
    with all of them when there is neither.  The input file is not set
    exactly when no argument is "<"; otherwise it is the argument after
    the last "<", or [NULL] when the "<" is the last argument.  The same
    holds of the output file and ">".  Nothing is added to the job list
    on this path. *)
Theorem child_redirection bg argv cmdline sigs st :
  ∃ args in_file out_file rest,
    launch bg argv cmdline 0 sigs st
      = ([EvBlock; EvFork 0], Child args in_file out_file) ∧
    argv = args ++ rest ∧
    Forall (λ a, a ≠ "<"%string ∧ a ≠ ">"%string) args ∧
    (rest = [] ∨ head rest = Some "<"%string ∨ head rest = Some ">"%string) ∧
    (in_file = None ↔ "<"%string ∉ argv) ∧
    (out_file = None ↔ ">"%string ∉ argv) ∧
    (∀ pre post, argv = pre ++ "<"%string :: post → "<"%string ∉ post →
       in_file = Some (head post)) ∧
    (∀ pre post, argv = pre ++ ">"%string :: post → ">"%string ∉ post →
       out_file = Some (head post)).
Proof.
  unfold launch.
  pose proof (redirections_cells argv None None) as Hcells.
  pose proof (redirections_in_none argv None None) as Hin.
  pose proof (redirections_out_none argv None None) as Hout.
  assert (∀ pre post, argv = pre ++ "<"%string :: post → "<"%string ∉ post →
            (redirections argv None None).1.2 = Some (head post)) as Hinl.
  { intros pre post -> Hno. by apply redirections_in_last. }
  assert (∀ pre post, argv = pre ++ ">"%string :: post → ">"%string ∉ post →
            (redirections argv None None).2 = Some (head post)) as Houtl.
  { intros pre post -> Hno. by apply redirections_out_last. }
  destruct (exec_args_prefix argv) as (rest & Heq & Hall & Hrest).
  rewrite <- Hcells in Heq, Hall.
  destruct (redirections argv None None) as [[cells in_file] out_file]. simpl in *.
  exists (exec_args cells), in_file, out_file, rest.
  split_and!; [done..| | |done|done].
  - split; [|done]. intros -> Hel.
    apply elem_of_split_last in Hel as (pre & post & Hsplit & Hno).
    by specialize (Hinl pre post Hsplit Hno).
  - split; [|done]. intros -> Hel.
    apply elem_of_split_last in Hel as (pre & post & Hsplit & Hno).
    by specialize (Houtl pre post Hsplit Hno).
Qed.

End redirection.

Section shell_more.
Implicit Types (st : shell) (jobs : list job_t).

Lemma with_jobs_same st : with_jobs st (Shell.jobs st) = st.
Proof. by destruct st. Qed.

(** What [eval] does with a line that has an argument, on a job list
    whose slots are numbered: it forks; in the parent it adds a
    background job in the first cleared slot, prints its line and returns,
    or reports that the list is full. *)
Lemma eval_numbered cmdline argv n pid sigs st :
  parseline cmdline = Some (argv, n) → argv ≠ [] →
  slots_numbered (Shell.jobs st) →
  (pid <= 0 ∧ outcome_state (snd (eval cmdline pid sigs st)) = None) ∨
  (0 < pid ∧
   eval cmdline pid sigs st =
   match list_find (λ j, Job.pid j = 0) (Shell.jobs st) with
   | Some (i, _) =>
       ([EvBlock; EvFork pid; EvAddjob pid BG 1;
         EvJobLine
           (pid2jid (<[i := Job.mk pid (Z.of_nat i + 1) BG cmdline]> (Shell.jobs st)) pid)
           pid cmdline;
         EvUnblock],
        Returned
          (with_jobs st (<[i := Job.mk pid (Z.of_nat i + 1) BG cmdline]> (Shell.jobs st))))
   | None =>
       ([EvBlock; EvFork pid; EvAddjob pid BG 0; EvAddFailed; EvUnblock], Returned st)
   end).
Proof.
  intros Hp Hne Hnum.
  destruct (eval_launch cmdline argv n pid sigs st Hp Hne) as [Hbg ->].
  unfold launch. destruct (redirections argv None None) as [[cells in_file] out_file].
  destruct (decide (pid < 0)); [left; split; [lia|done]|].
  destruct (decide (pid = 0)); [left; split; [lia|done]|].
  right. split; [lia|]. destruct (decide (n = 0)) as [|_]; [done|].
  pose proof (slots_numbered_ok _ Hnum) as (Hlen & Hslots & _).
  destruct (addjob (Shell.jobs st) pid BG cmdline) as [[ret jobs']|] eqn:Hadd.
  - destruct (addjob_numbered _ _ _ _ _ _ Hnum Hadd)
      as [[-> ->]|(-> & Hpid & i & Hfind & ->)].
    + destruct (addjob_cases (Shell.jobs st) pid BG cmdline Hlen Hslots)
        as [[_ [Hfull|?]]|(_ & _ & ? & ? & ? & _ & _ & _ & Heq)];
        [|lia|congruence].
      assert (list_find (λ j, Job.pid j = 0) (Shell.jobs st) = None) as ->.
      { apply list_find_None. exact Hfull. }
      simpl. by rewrite with_jobs_same.
    + by rewrite Hfind.
  - destruct (addjob_cases (Shell.jobs st) pid BG cmdline Hlen Hslots)
      as [[? _]|(_ & _ & ? & ? & ? & _ & _ & _ & ?)]; congruence.
Qed.

Lemma launch_log_numbered n jobs : launch_log n jobs → slots_numbered jobs.
Proof.
  intros (Hlen & _ & Hlog). split; [done|]. intros i j Hi.
  specialize (Hlog i j Hi). destruct (decide (i < n)%nat); [right|by left].
  by destruct Hlog as (? & ? & _).
Qed.

Lemma launch_log_find n jobs :
  launch_log n jobs →
  list_find (λ j, Job.pid j = 0) jobs =
  if decide (n < MAXJOBS)%nat then Some (n, cleared) else None.
Proof.
  intros (Hlen & Hn & Hlog). destruct (decide (n < MAXJOBS)%nat) as [Hlt|Hge].
  - destruct (lookup_lt_is_Some_2 jobs n) as [j Hj]; [lia|].
    pose proof (Hlog n j Hj) as Hc. rewrite decide_False in Hc by lia. subst j.
    apply list_find_Some. split_and!; [done..|].
    intros i j Hi Hlt'. specialize (Hlog i j Hi). rewrite decide_True in Hlog by done.
    lia.
  - apply list_find_None, Forall_lookup. intros i j Hi.
    pose proof (lookup_lt_Some _ _ _ Hi). specialize (Hlog i j Hi).
    rewrite decide_True in Hlog by lia. lia.
Qed.

Lemma launch_log_insert n jobs pid cmdline :
  launch_log n jobs → (n < MAXJOBS)%nat → 1 <= pid →
  launch_log (S n) (<[n := Job.mk pid (Z.of_nat n + 1) BG cmdline]> jobs).
Proof.
  intros (Hlen & Hn & Hlog) Hlt Hpid. split_and!; [by rewrite length_insert|lia|].
  intros i j [(-> & <- & _)|[Hne Hi]]%list_lookup_insert_Some.
  - by rewrite decide_True by lia.
  - specialize (Hlog i j Hi).
    destruct (decide (i < n)%nat); [by rewrite decide_True by lia|].
    by rewrite decide_False by lia.
Qed.

Lemma shell_step_log op st n :
  launch_log n (Shell.jobs st) →
  match outcome_state (shell_step op st) with
  | Some st' =>
      shell_step op st = Returned st' ∧
      (launch_log n (Shell.jobs st') ∨ launch_log (S n) (Shell.jobs st'))
  | None => True
  end.
Proof.
  intros Hlog. destruct op as [cmdline pid sigs|sig|argv]; simpl.
  - destruct (parseline cmdline) as [[argv k]|] eqn:Hp;
      [|by unfold eval; rewrite Hp].
    destruct argv as [|a argv]; [unfold eval; rewrite Hp; simpl; by auto|].
    destruct (eval_numbered cmdline (a :: argv) k pid sigs st Hp)
      as [[_ ->]|[Hpid ->]]; [done|by eapply launch_log_numbered|done|].
    rewrite (launch_log_find n) by done.
    destruct (decide (n < MAXJOBS)%nat); simpl; [|by auto].
    split; [done|right]. apply launch_log_insert; [done..|lia].
  - destruct (deliver sig st) as [st'|] eqn:Hdel; simpl; [|done].
    apply deliver_jobs in Hdel. rewrite Hdel. by auto.
  - by auto.
Qed.

Lemma shell_run_log ops st n :
  launch_log n (Shell.jobs st) →
  match outcome_state (shell_run ops st) with
  | Some st' =>
      shell_run ops st = Returned st' ∧
      ∃ n', (n <= n')%nat ∧ launch_log n' (Shell.jobs st')
  | None => True
  end.
Proof.
  revert st n. induction ops as [|op ops IH]; intros st n Hlog; simpl.
  - split; [done|]. by exists n.
  - pose proof (shell_step_log op st n Hlog) as Hstep.
    destruct (shell_step op st) as [st1|st1| | |] eqn:Hop; simpl in *; try done.
    + destruct Hstep as [_ [H1|H1]].
      * by apply IH.
      * specialize (IH st1 (S n) H1).
        destruct (outcome_state (shell_run ops st1)); [|done].
        destruct IH as (? & n' & ? & ?). split; [done|]. exists n'. split; [lia|done].
    + by destruct Hstep as [? _].
Qed.

Lemma launch_log_init : launch_log 0 jobs_init.
Proof.
  split_and!; [done|lia|]. intros i j Hi. simpl.
  destruct slots_numbered_init as [_ Hnum].
  destruct (Hnum i j Hi) as [->|[Hpid _]]; [done|].
  unfold jobs_init, initjobs in Hi. rewrite list_lookup_fmap in Hi.
  destruct (replicate _ _ !! i); by simplify_eq/=.
Qed.

(** X16. In every state that the shell reaches from its initial one the
    job list is a log of the commands launched so far: for some [n] of at
    most [MAXJOBS], the first [n] slots hold jobs with a pid of at least
    1, jid equal to the slot position counted from 1 and state [BG], and
    the remaining slots are cleared.  No job is in the foreground, and
    the shell is never left suspended in [waitfg]. *)
Theorem shell_table_is_log ops st :
  outcome_state (shell_run ops shell_init) = Some st →
  shell_run ops shell_init = Returned st ∧
  fgpid (Shell.jobs st) = 0 ∧
  ∃ n, launch_log n (Shell.jobs st).
Proof.
  intros Hout. pose proof (shell_run_log ops shell_init 0 launch_log_init) as Hrun.
  rewrite Hout in Hrun. destruct Hrun as (Hret & n & _ & Hlog).
  split_and!; [done| |by exists n].
  apply fgpid_none, count_fg_0, Forall_lookup. intros i j Hi.
  destruct Hlog as (_ & _ & Hlog). specialize (Hlog i j Hi).
  destruct (decide (i < n)%nat); [by destruct Hlog as (_ & _ & ->)|by subst].
Qed.

Lemma shell_table_is_log_witness :
  ∃ st,
    shell_run [OpLine ("ls" +:+ nl) 100 []; OpSignal SIGCHLD;
               OpLine ("cat &" +:+ nl) 101 []] shell_init = Returned st ∧
    fgpid (Shell.jobs st) = 0 ∧
    ∃ n, launch_log n (Shell.jobs st).
Proof.
  eexists.
  apply (shell_table_is_log
           [OpLine ("ls" +:+ nl) 100 []; OpSignal SIGCHLD;
            OpLine ("cat &" +:+ nl) 101 []]).
  reflexivity.
Defined.

(** X17. What [eval] does with a line that has an argument, in a state
    that the shell has reached, when [fork] returns a pid above 0: it
    blocks SIGCHLD, forks, adds a background job in the first unused slot
    with the slot position as jid and the whole line as command line,
    prints the job line, unblocks SIGCHLD and returns; when no slot is
    unused it reports the failure and returns with the globals as they
    were.  It never calls [waitfg]. *)
Theorem eval_launches_in_background ops st cmdline argv n pid sigs :
  shell_run ops shell_init = Returned st →
  parseline cmdline = Some (argv, n) → argv ≠ [] → 0 < pid →
  eval cmdline pid sigs st =
  match list_find (λ j, Job.pid j = 0) (Shell.jobs st) with
  | Some (i, _) =>
      ([EvBlock; EvFork pid; EvAddjob pid BG 1;
        EvJobLine
          (pid2jid (<[i := Job.mk pid (Z.of_nat i + 1) BG cmdline]> (Shell.jobs st)) pid)
          pid cmdline;
        EvUnblock],
       Returned
         (with_jobs st (<[i := Job.mk pid (Z.of_nat i + 1) BG cmdline]> (Shell.jobs st))))
  | None =>
      ([EvBlock; EvFork pid; EvAddjob pid BG 0; EvAddFailed; EvUnblock], Returned st)
  end.
Proof.
  intros Hrun Hp Hne Hpid.
  pose proof (shell_run_log ops shell_init 0 launch_log_init) as Hlog.
  rewrite Hrun in Hlog. simpl in Hlog. destruct Hlog as (_ & n' & _ & Hlog).
  destruct (eval_numbered cmdline argv n pid sigs st Hp Hne) as [[? _]|[_ ->]];
    [by eapply launch_log_numbered|lia|done].
Qed.

Lemma eval_launches_in_background_witness :
  eval ("cat &" +:+ nl) 101 []
    (Shell.mk (<[0%nat := Job.mk 100 1 BG ("ls" +:+ nl)]> jobs_init) 0) =
  match list_find (λ j, Job.pid j = 0)
          (Shell.jobs (Shell.mk (<[0%nat := Job.mk 100 1 BG ("ls" +:+ nl)]> jobs_init) 0))
  with
  | Some (i, _) =>
      ([EvBlock; EvFork 101; EvAddjob 101 BG 1;
        EvJobLine
          (pid2jid
             (<[i := Job.mk 101 (Z.of_nat i + 1) BG ("cat &" +:+ nl)]>
                (Shell.jobs
                   (Shell.mk (<[0%nat := Job.mk 100 1 BG ("ls" +:+ nl)]> jobs_init) 0)))
             101)
          101 ("cat &" +:+ nl);
        EvUnblock],
       Returned
         (with_jobs
            (Shell.mk (<[0%nat := Job.mk 100 1 BG ("ls" +:+ nl)]> jobs_init) 0)
            (<[i := Job.mk 101 (Z.of_nat i + 1) BG ("cat &" +:+ nl)]>
               (Shell.jobs
                  (Shell.mk (<[0%nat := Job.mk 100 1 BG ("ls" +:+ nl)]> jobs_init) 0)))))
  | None =>
      ([EvBlock; EvFork 101; EvAddjob 101 BG 0; EvAddFailed; EvUnblock],
       Returned (Shell.mk (<[0%nat := Job.mk 100 1 BG ("ls" +:+ nl)]> jobs_init) 0))
  end.
Proof.
  apply (eval_launches_in_background [OpLine ("ls" +:+ nl) 100 []] _ _
           ["cat"; "&"] 2).
  - reflexivity.
  - reflexivity.
  - done.
  - lia.
Defined.

Lemma launch_keeps bg argv cmdline pid sigs st st' i j :
  outcome_state (snd (launch bg argv cmdline pid sigs st)) = Some st' →
  Shell.jobs st !! i = Some j → live j → Shell.jobs st' !! i = Some j.
Proof.
  unfold launch. destruct (redirections argv None None) as [[cells in_file] out_file].
  destruct (decide (pid < 0)); [done|]. destruct (decide (pid = 0)); [done|].
  destruct (addjob _ _ _ _) as [[ret jobs']|] eqn:Hadd; [|done].
  intros Hout Hi Hl.
  assert (jobs' !! i = Some j) as Hi'.
  { apply addjob_effect in Hadd as [[_ ->]|(_ & _ & i0 & old & k & Hi0 & Hz & ->)];
      [done|].
    rewrite list_lookup_insert_ne; [done|]. intros ->. by simplify_eq. }
  destruct (decide (bg = 0)); simpl in Hout.
  - pose proof (waitfg_outcome pid sigs (with_jobs st jobs')) as Hw.
    destruct (waitfg _ _ _); simplify_eq/=; [|done].
    destruct Hw as [-> _]. done.
  - by simplify_eq.
Qed.

Lemma shell_step_keeps op st st' i j :
  outcome_state (shell_step op st) = Some st' →
  Shell.jobs st !! i = Some j → live j → Shell.jobs st' !! i = Some j.
Proof.
  destruct op as [cmdline pid sigs|sig|argv]; simpl.
  - unfold eval. destruct (parseline cmdline) as [[argv bg]|]; [|done].
    destruct argv as [|a argv]; [by intros [= <-]|].
    destruct (decide (builtin_cmd (a :: argv) = 0)); [|by intros [= <-]].
    apply launch_keeps.
  - destruct (deliver sig st) as [st1|] eqn:Hdel; [|done].
    apply deliver_jobs in Hdel. intros [= <-]. by rewrite Hdel.
  - by intros [= <-].
Qed.

(** X18. Whatever state the shell is in, nothing it does afterwards
    (evaluating lines, handling signals, the bg/fg routine) removes a job
    from the job list or changes one: a slot in use holds the same pid,
    jid, state and command line in every later state. *)
Theorem shell_keeps_jobs ops st st' i j :
  outcome_state (shell_run ops st) = Some st' →
  Shell.jobs st !! i = Some j → live j →
  Shell.jobs st' !! i = Some j.
Proof.
  revert st. induction ops as [|op ops IH]; intros st; simpl.
  - by intros [= <-].
  - intros Hout Hi Hl.
    pose proof (shell_step_keeps op st) as Hstep.
    destruct (shell_step op st) as [st1|st1| | |]; simpl in *; try done.
    + eapply IH; [done| |done]. by eapply Hstep.
    + by eapply Hstep.
Qed.

Lemma shell_keeps_jobs_witness :
  Shell.jobs
    (Shell.mk
       (<[1%nat := Job.mk 101 2 BG ("cat &" +:+ nl)]>
          (<[0%nat := Job.mk 100 1 BG ("ls" +:+ nl)]> jobs_init)) 0) !! 0%nat
  = Some (Job.mk 100 1 BG ("ls" +:+ nl)).
Proof.
  apply (shell_keeps_jobs
           [OpSignal SIGCHLD; OpSignal SIGINT; OpSignal SIGTSTP;
            OpBgfg ["bg"; "%1"]; OpLine ("cat &" +:+ nl) 101 []]
           (Shell.mk (<[0%nat := Job.mk 100 1 BG ("ls" +:+ nl)]> jobs_init) 0)).
  - reflexivity.
  - reflexivity.
  - unfold live. simpl. lia.
Defined.

(** X19. [waitfg] returns at once when [pid] is not the pid that [fgpid]
    reports.  When it is, [waitfg] never returns: no handler changes the
    job list, so the shell stays suspended, with the job list as it was,
    unless a SIGQUIT arrives, whose handler ends the shell with status
    1. *)
Theorem waitfg_never_returns pid sigs st :
  (fgpid (Shell.jobs st) ≠ pid → waitfg pid sigs st = Returned st) ∧
  (fgpid (Shell.jobs st) = pid →
   if decide (SIGQUIT ∈ sigs) then waitfg pid sigs st = Exited 1
   else ∃ st', waitfg pid sigs st = Blocked st' ∧ Shell.jobs st' = Shell.jobs st).
Proof.
  split.
  - intros Hne. destruct sigs; simpl; by rewrite decide_False.
  - revert st. induction sigs as [|sig sigs IH]; intros st Hfg.
    + rewrite decide_False by (by intros ?%elem_of_nil).
      exists st. simpl. by rewrite decide_True.
    + assert (waitfg pid (sig :: sigs) st =
              match deliver sig st with
              | Some st' => waitfg pid sigs st'
              | None => Exited 1
              end) as -> by (simpl; by rewrite decide_True).
      destruct (deliver sig st) as [st1|] eqn:Hdel.
      * pose proof (deliver_jobs _ _ _ Hdel) as Hjobs.
        assert (sig ≠ SIGQUIT) as Hsig by (intros ->; done).
        specialize (IH st1). rewrite Hjobs in IH. specialize (IH Hfg).
        destruct (decide (SIGQUIT ∈ sigs)) as [Hq|Hq].
        -- rewrite decide_True; [done|]. by right.
        -- rewrite decide_False; [done|]. by intros [?|?]%elem_of_cons.
      * assert (sig = SIGQUIT) as -> by by destruct sig.
        rewrite decide_True; [done|]. by left.
Qed.

End shell_more.

(** * Properties of the main routine *)

Section main_routine.
Implicit Types (input l tail : chars) (ls : list chars) (env : nat → turn) (st : shell).

(** One turn of the read/eval loop. *)
Lemma main_loop_turn input env k st :
  main_loop input env k st =
  match deliver_all (before (env k)) st with
  | None => Exited 1
  | Some st1 =>
      match fgets (Z.to_nat (MAXLINE - 1)) input with
      | (line, rest, true) => Exited 0
      | (line, rest, false) =>
          match snd (eval (string_of_list_ascii line) (fork_pid (env k))
                       (during (env k)) st1) with
          | Returned st' => main_loop rest env (S k) st'
          | o => o
          end
      end
  end.
Proof.
  funelim (main_loop input env k st).
  all: repeat match goal with
         | H : deliver_all _ _ = _ |- _ => rewrite H
         | H : fgets _ _ = _ |- _ => rewrite H
         | H : snd (eval _ _ _ _) = _ |- _ => rewrite H
         end.
  all: done.
Qed.

Lemma fgets_line n l rest :
  newline ∉ l → (length l < n)%nat →
  fgets n (l ++ newline :: rest) = (l ++ [newline], rest, false).
Proof.
  revert n. induction l as [|a l IH]; intros [|n] Hnl Hlen; simpl in *; try lia.
  - done.
  - apply not_elem_of_cons in Hnl as [Ha Hnl].
    rewrite decide_False by done. by rewrite IH by (done || lia).
Qed.

Lemma fgets_tail n tail :
  newline ∉ tail → (length tail < n)%nat → fgets n tail = (tail, [], true).
Proof.
  revert n. induction tail as [|a tail IH]; intros [|n] Hnl Hlen; simpl in *;
    try lia; [done|].
  apply not_elem_of_cons in Hnl as [Ha Hnl].
  rewrite decide_False by done. by rewrite IH by (done || lia).
Qed.

Lemma shell_run_app ops1 ops2 st :
  shell_run (ops1 ++ ops2) st =
  match shell_run ops1 st with
  | Returned st1 => shell_run ops2 st1
  | o => o
  end.
Proof.
  revert st. induction ops1 as [|op ops1 IH]; intros st; [done|]. simpl.
  destruct (shell_step op st); auto.
Qed.

Lemma shell_run_signals sigs st :
  shell_run (OpSignal <$> sigs) st =
  match deliver_all sigs st with
  | Some st1 => Returned st1
  | None => Exited 1
  end.
Proof.
  revert st. induction sigs as [|sig sigs IH]; intros st; [done|].
  rewrite fmap_cons. simpl. destruct (deliver sig st) as [st1|]; auto.
Qed.

Lemma typed_cons l ls tail : typed (l :: ls) tail = l ++ newline :: typed ls tail.
Proof. unfold typed. rewrite fmap_cons. simpl. by rewrite <- !app_assoc. Qed.

(** The loop on complete lines and an unfinished last one. *)
Lemma main_loop_lines ls tail env k st :
  Forall line_fits ls → line_fits tail →
  main_loop (typed ls tail) env k st =
  match shell_run (main_ops ls env k) st with
  | Returned _ => Exited 0
  | o => o
  end.
Proof.
  intros Hls [Hnl Hlen]. revert k st.
  induction Hls as [|l ls [Hl Hfit] _ IH]; intros k st.
  - change (typed [] tail) with tail.
    rewrite main_loop_turn. cbn [main_ops]. rewrite shell_run_signals.
    destruct (deliver_all _ st) as [st1|]; [|done].
    rewrite fgets_tail; [done..|]. unfold MAXLINE in *. lia.
  - rewrite typed_cons.
    rewrite main_loop_turn. cbn [main_ops].
    rewrite shell_run_app, shell_run_signals.
    destruct (deliver_all _ st) as [st1|]; [|done].
    rewrite fgets_line; [|done|unfold MAXLINE in *; lia].
    cbn [shell_run shell_step].
    destruct (eval _ _ _ st1).2 as [st2| | | |] eqn:Hev; auto.
Qed.

Lemma options_ok opts verbose emit_prompt :
  is_Some (options opts verbose emit_prompt) ↔
  Forall (λ c, c = "v"%char ∨ c = "p"%char) opts.
Proof.
  revert verbose emit_prompt.
  induction opts as [|c opts IH]; intros verbose emit_prompt; simpl.
  - split; [by constructor|by eexists].
  - rewrite Forall_cons. destruct (decide (c = "h"%char)) as [->|Hh].
    { split; [by intros [? ?]|]. by intros [[?|?] _]. }
    destruct (decide (c = "v"%char)) as [->|Hv]; [rewrite IH; by intuition|].
    destruct (decide (c = "p"%char)) as [->|Hp]; [rewrite IH; by intuition|].
    split; [by intros [? ?]|]. by intros [[?|?] _].
Qed.



End main_routine.
